(** * Social recommender (recsys/recsys.py): shallow embedding and properties

    The job [SocRecSys] is an mrjob pipeline of three map-reduce steps:
    [inputmap]/[joinred], the identity mapper with [sumred], and
    [rowgroupmap]/[topkoutput].  The Python values that flow through the
    job are embedded as [pyval]; an exception is an explicit [Raise]; a
    generator is the list of what it yields together with the exception that
    ended it, if any.  Python floats are IEEE 754 binary64 numbers, taken
    from the Standard Library's [SpecFloat]. *)

From Stdlib Require Import ZArith List String Ascii Bool Lia Permutation.
From Stdlib Require Import SpecFloat.
Import ListNotations.

Local Open Scope string_scope.
Local Open Scope list_scope.
Local Open Scope Z_scope.

Set Warnings "-register-all".

(** ** Python values, exceptions and the built-ins the job calls *)

Module Py.

Inductive pyval : Type :=
| PyNone
| PyBool (b : bool)
| PyInt (z : Z)
| PyFloat (f : spec_float)
| PyStr (s : string)
| PyTuple (items : list pyval)
| PyList (items : list pyval).

Inductive pyerr : Type :=
| TypeError
| ValueError
| OverflowError
| ZeroDivisionError
| IndexError
| AttributeError.

Inductive result (A : Type) : Type :=
| Ok (a : A)
| Raise (e : pyerr).

Arguments Ok {A} a.
Arguments Raise {A} e.

Definition bind {A B : Type} (c : result A) (k : A -> result B) : result B :=
  match c with
  | Ok a => k a
  | Raise e => Raise e
  end.

Notation "x <- c ;; k" := (bind c (fun x => k))
  (at level 61, c at next level, right associativity).

(** *** Equality of values is decidable (the shuffle compares keys) *)

Definition spec_float_eq_dec (x y : spec_float) : {x = y} + {x <> y}.
Proof.
  decide equality; try apply Bool.bool_dec; try apply Z.eq_dec;
    apply Pos.eq_dec.
Defined.

Fixpoint pyval_eq_dec (a b : pyval) {struct a} : {a = b} + {a <> b}.
Proof.
  decide equality.
  - apply Bool.bool_dec.
  - apply Z.eq_dec.
  - apply spec_float_eq_dec.
  - apply string_dec.
  - apply (list_eq_dec pyval_eq_dec).
  - apply (list_eq_dec pyval_eq_dec).
Defined.

(** *** Strings: [str.split(sep)] with a one-character separator,
    [str.strip()] and [int(str)] *)

Definition tab : ascii := "009"%char.

(** [s.split(sep)]: the pieces between the occurrences of [sep]; a string
    with [n] separators has [n + 1] pieces, some possibly empty. *)
Fixpoint split (sep : ascii) (s : string) : list string :=
  match s with
  | EmptyString => [EmptyString]
  | String c rest =>
      if Ascii.eqb c sep then EmptyString :: split sep rest
      else match split sep rest with
           | [] => [String c EmptyString]
           | p :: ps => String c p :: ps
           end
  end.

(** The characters [str.strip()] removes: space, \t, \n, \v, \f, \r. *)
Definition is_space (c : ascii) : bool :=
  let n := nat_of_ascii c in
  (Nat.eqb n 32 || (Nat.leb 9 n && Nat.leb n 13))%bool.

Fixpoint lstrip (s : string) : string :=
  match s with
  | EmptyString => EmptyString
  | String c rest => if is_space c then lstrip rest else s
  end.

Fixpoint rstrip (s : string) : string :=
  match s with
  | EmptyString => EmptyString
  | String c rest =>
      match rstrip rest with
      | EmptyString => if is_space c then EmptyString else String c EmptyString
      | r => String c r
      end
  end.

Definition strip (s : string) : string := rstrip (lstrip s).

Definition digit_of (c : ascii) : option Z :=
  let n := nat_of_ascii c in
  if (Nat.leb 48 n && Nat.leb n 57)%bool then Some (Z.of_nat (n - 48)) else None.

Fixpoint digits_value (acc : Z) (s : string) : option Z :=
  match s with
  | EmptyString => Some acc
  | String c rest =>
      match digit_of c with
      | Some d => digits_value (10 * acc + d) rest
      | None => None
      end
  end.

Definition unsigned_literal (s : string) : result Z :=
  match s with
  | EmptyString => Raise ValueError
  | _ => match digits_value 0 s with
         | Some z => Ok z
         | None => Raise ValueError
         end
  end.

(** [int(s)] for a string: surrounding whitespace is ignored, then an
    optional sign and at least one decimal digit; anything else is a
    [ValueError].  Python integers are unbounded. *)
Definition int_of_str (s : string) : result Z :=
  match strip s with
  | EmptyString => Raise ValueError
  | String c body =>
      if Ascii.eqb c "+" then unsigned_literal body
      else if Ascii.eqb c "-" then z <- unsigned_literal body ;; Ok (- z)
      else unsigned_literal (String c body)
  end.

(** *** Floats *)

Definition prec : Z := 53.
Definition emax : Z := 1024.

Definition fzero : spec_float := S754_zero false.
Definition fadd : spec_float -> spec_float -> spec_float := SFadd prec emax.
Definition fdiv : spec_float -> spec_float -> spec_float := SFdiv prec emax.

(** [float(z)] for an integer: the nearest binary64 number, or
    [OverflowError] when that is out of range. *)
Definition float_of_int (z : Z) : result spec_float :=
  match binary_normalize prec emax z 0 false with
  | S754_infinity _ => Raise OverflowError
  | f => Ok f
  end.

(** The right operand of a float [+] or [/]: numbers are coerced to float,
    anything else makes the operation a [TypeError]. *)
Definition float_operand (v : pyval) : result spec_float :=
  match v with
  | PyFloat f => Ok f
  | PyInt z => float_of_int z
  | PyBool b => float_of_int (if b then 1 else 0)
  | _ => Raise TypeError
  end.

(** [x + v] with [x] a float. *)
Definition float_add (x : spec_float) (v : pyval) : result spec_float :=
  y <- float_operand v ;; Ok (fadd x y).

Definition is_fzero (x : spec_float) : bool :=
  match x with
  | S754_zero _ => true
  | _ => false
  end.

(** [x / y] on floats. *)
Definition float_div (x y : spec_float) : result spec_float :=
  if is_fzero y then Raise ZeroDivisionError else Ok (fdiv x y).

(** *** Sequences: [len], indexing and two-target unpacking *)

Definition chars (s : string) : list pyval :=
  map (fun c => PyStr (String c EmptyString)) (list_ascii_of_string s).

(** The items of a value that can be iterated and indexed. *)
Definition items_of (v : pyval) : result (list pyval) :=
  match v with
  | PyTuple l => Ok l
  | PyList l => Ok l
  | PyStr s => Ok (chars s)
  | _ => Raise TypeError
  end.

Definition py_len (v : pyval) : result nat :=
  l <- items_of v ;; Ok (List.length l).

(** [v[i]] for a non-negative literal index [i]. *)
Definition py_getitem (v : pyval) (i : nat) : result pyval :=
  l <- items_of v ;;
  match nth_error l i with
  | Some x => Ok x
  | None => Raise IndexError
  end.

(** [(a, b) = v]: [v] must have exactly two items. *)
Definition unpack2 (v : pyval) : result (pyval * pyval) :=
  l <- items_of v ;;
  match l with
  | [a; b] => Ok (a, b)
  | _ => Raise ValueError
  end.

(** *** Ordering of values (Python 2 compares any two values) and the
    built-ins [sorted], [min] and [xrange] *)

(** [z < f] and [f < z] for an integer and a float, compared exactly. *)
Definition int_lt_float (z : Z) (f : spec_float) : bool :=
  match f with
  | S754_nan => false
  | S754_infinity s => negb s
  | S754_zero _ => z <? 0
  | S754_finite s m e =>
      let v := if s then Zneg m else Zpos m in
      if 0 <=? e then z <? v * 2 ^ e else z * 2 ^ (- e) <? v
  end.

Definition float_lt_int (f : spec_float) (z : Z) : bool :=
  match f with
  | S754_nan => false
  | S754_infinity s => s
  | S754_zero _ => 0 <? z
  | S754_finite s m e =>
      let v := if s then Zneg m else Zpos m in
      if 0 <=? e then v * 2 ^ e <? z else v <? z * 2 ^ (- e)
  end.

Definition Z_of_bool (b : bool) : Z := if b then 1 else 0.

(** The numeric reading of a value: an integer or a float. *)
Definition number_of (v : pyval) : option (Z + spec_float) :=
  match v with
  | PyBool b => Some (inl (Z_of_bool b))
  | PyInt z => Some (inl z)
  | PyFloat f => Some (inr f)
  | _ => None
  end.

Definition num_lt (a b : Z + spec_float) : bool :=
  match a, b with
  | inl x, inl y => x <? y
  | inl x, inr g => int_lt_float x g
  | inr f, inl y => float_lt_int f y
  | inr f, inr g => SFltb f g
  end.

Definition num_eq (a b : Z + spec_float) : bool :=
  match a, b with
  | inl x, inl y => x =? y
  | inr f, inr g => SFeqb f g
  | inl x, inr g => negb (int_lt_float x g) && negb (float_lt_int g x)
                    && negb (match g with S754_nan => true | _ => false end)
  | inr f, inl y => negb (int_lt_float y f) && negb (float_lt_int f y)
                    && negb (match f with S754_nan => true | _ => false end)
  end.

(** Values of different kinds are ordered by kind: [None], then numbers, then
    the other types by their names ([list], [str], [tuple]). *)
Definition type_rank (v : pyval) : nat :=
  match v with
  | PyNone => 0
  | PyBool _ | PyInt _ | PyFloat _ => 1
  | PyList _ => 2
  | PyStr _ => 3
  | PyTuple _ => 4
  end.

Fixpoint py_eq (a b : pyval) {struct a} : bool :=
  let seq_eq :=
    fix seq_eq (l1 l2 : list pyval) {struct l1} : bool :=
      match l1, l2 with
      | [], [] => true
      | x :: xs, y :: ys => py_eq x y && seq_eq xs ys
      | _, _ => false
      end in
  match a, b with
  | PyNone, PyNone => true
  | PyStr s, PyStr t => String.eqb s t
  | PyTuple l1, PyTuple l2 => seq_eq l1 l2
  | PyList l1, PyList l2 => seq_eq l1 l2
  | _, _ =>
      match number_of a, number_of b with
      | Some x, Some y => num_eq x y
      | _, _ => false
      end
  end.

Fixpoint py_lt (a b : pyval) {struct a} : bool :=
  let seq_lt :=
    fix seq_lt (l1 l2 : list pyval) {struct l1} : bool :=
      match l1, l2 with
      | [], [] => false
      | [], _ :: _ => true
      | _ :: _, [] => false
      | x :: xs, y :: ys => if py_eq x y then seq_lt xs ys else py_lt x y
      end in
  match a, b with
  | PyStr s, PyStr t => match String.compare s t with Lt => true | _ => false end
  | PyTuple l1, PyTuple l2 => seq_lt l1 l2
  | PyList l1, PyList l2 => seq_lt l1 l2
  | _, _ =>
      match number_of a, number_of b with
      | Some x, Some y => num_lt x y
      | _, _ => Nat.ltb (type_rank a) (type_rank b)
      end
  end.

(** An argument of a call: a value or a callable. *)
Inductive pyarg : Type :=
| ArgVal (v : pyval)
| ArgFun (f : pyval -> result pyval).

(** [operator.itemgetter(i)]. *)
Definition itemgetter (i : nat) : pyarg := ArgFun (fun v => py_getitem v i).

Fixpoint lookup_kw (name : string) (kw : list (string * pyarg)) : option pyarg :=
  match kw with
  | [] => None
  | (n, a) :: rest => if String.eqb n name then Some a else lookup_kw name rest
  end.

(** The keyword parameters of [sorted(iterable, cmp=None, key=None,
    reverse=False)]. *)
Definition sorted_keywords : list string := ["cmp"; "key"; "reverse"].

Definition known_kw (names : list string) (kw : list (string * pyarg)) : bool :=
  forallb (fun na => existsb (String.eqb (fst na)) names) kw.

(** Insertion of a keyed item in front of a sorted list, after the items
    that must stay before it: with [reverse] the greater keys, otherwise the
    smaller ones; items with equal keys keep their order. *)
Fixpoint insert_keyed (reverse : bool) (kx : pyval * pyval)
    (l : list (pyval * pyval)) : list (pyval * pyval) :=
  match l with
  | [] => [kx]
  | ky :: rest =>
      let moves := if reverse then py_lt (fst kx) (fst ky)
                   else py_lt (fst ky) (fst kx) in
      if moves then ky :: insert_keyed reverse kx rest else kx :: l
  end.

Fixpoint with_keys (keyf : pyval -> result pyval) (l : list pyval)
    : result (list (pyval * pyval)) :=
  match l with
  | [] => Ok []
  | x :: rest =>
      k <- keyf x ;; more <- with_keys keyf rest ;; Ok ((k, x) :: more)
  end.

(** [sorted(iterable, **kw)]: a keyword that is not a parameter of [sorted]
    is a [TypeError], raised before anything is sorted.  The sort is stable.
    A comparison function ([cmp] other than [None]) is outside this model. *)
Definition py_sorted (iterable : list pyval) (kw : list (string * pyarg))
    : result (list pyval) :=
  if negb (known_kw sorted_keywords kw) then Raise TypeError else
  match lookup_kw "cmp" kw with
  | Some (ArgFun _) | Some (ArgVal (PyBool _ | PyInt _ | PyFloat _ | PyStr _
                                    | PyTuple _ | PyList _)) => Raise TypeError
  | _ =>
  keyf <- match lookup_kw "key" kw with
          | None | Some (ArgVal PyNone) => Ok (fun v => Ok v)
          | Some (ArgFun f) => Ok f
          | Some (ArgVal _) => Raise TypeError
          end ;;
  reverse <- match lookup_kw "reverse" kw with
             | None => Ok false
             | Some (ArgVal (PyBool b)) => Ok b
             | Some (ArgVal (PyInt z)) => Ok (negb (z =? 0))
             | Some _ => Raise TypeError
             end ;;
  keyed <- with_keys keyf iterable ;;
  Ok (map snd (fold_right (insert_keyed reverse) [] keyed))
  end.

(** [min(a, b)]: [b] when [b < a], otherwise [a]. *)
Definition py_min (a b : pyval) : pyval := if py_lt b a then b else a.

(** [xrange(n)] as the list of its indices; [n] must be an integer. *)
Definition xrange (n : pyval) : result (list nat) :=
  match n with
  | PyInt z => Ok (seq 0 (Z.to_nat z))
  | PyBool b => Ok (seq 0 (Z.to_nat (Z_of_bool b)))
  | _ => Raise TypeError
  end.

End Py.
Import Py.

(** ** The map-reduce runtime the job runs on

    mrjob is not part of the repository.  What the job relies on is modelled
    here: a step maps every input record, groups the mapped records by key
    (the shuffle) and reduces every group; an exception in any task fails
    the run.  The runtime fixes neither the order of the groups nor the order
    of the values inside a group, so the shuffle is a parameter.  Records
    reach the next task as they were yielded: their serialization between
    tasks is left out. *)

Module MapReduce.

Definition record : Type := pyval * pyval.

(** A generator run to its end: what it yielded and the exception that
    stopped it, if any. *)
Definition gen : Type := list record * option pyerr.

Definition yield (k v : pyval) : gen := ([(k, v)], None).
Definition nothing : gen := ([], None).
Definition raise (e : pyerr) : gen := ([], Some e).

Definition mapper : Type := pyval -> pyval -> gen.
Definition reducer : Type := pyval -> list pyval -> gen.

(** [self.mr(mapper=..., reducer=...)]. *)
Record step : Type := mr { step_mapper : option mapper; step_reducer : reducer }.

Definition group : Type := pyval * list pyval.
Definition shuffle : Type := list record -> list group.

(** The records of a list of tasks, or the first exception. *)
Fixpoint collect (outs : list gen) : result (list record) :=
  match outs with
  | [] => Ok []
  | (_, Some e) :: _ => Raise e
  | (ys, None) :: rest => more <- collect rest ;; Ok (ys ++ more)
  end.

(** [mapper=None] is the identity mapper. *)
Definition mapper_of (m : option mapper) : mapper :=
  match m with
  | Some f => f
  | None => yield
  end.

Definition map_phase (m : option mapper) (input : list record)
    : result (list record) :=
  collect (map (fun kv => mapper_of m (fst kv) (snd kv)) input).

Definition reduce_phase (r : reducer) (gs : list group)
    : result (list record) :=
  collect (map (fun g => r (fst g) (snd g)) gs).

Definition run_step (sh : shuffle) (st : step) (input : list record)
    : result (list record) :=
  kvs <- map_phase (step_mapper st) input ;;
  reduce_phase (step_reducer st) (sh kvs).

Fixpoint run_steps (sh : shuffle) (sts : list step) (input : list record)
    : result (list record) :=
  match sts with
  | [] => Ok input
  | st :: rest => out <- run_step sh st input ;; run_steps sh rest out
  end.

(** The first step reads text lines: the key is [None], the value the line. *)
Definition read_lines (lines : list string) : list record :=
  map (fun l => (PyNone, PyStr l)) lines.

(** *** What a shuffle must do *)

Definition ungroup (gs : list group) : list record :=
  flat_map (fun g => map (pair (fst g)) (snd g)) gs.

(** [gs] groups [kvs] by key: one non-empty group per key, holding the
    values of that key in some order. *)
Definition is_grouping (kvs : list record) (gs : list group) : Prop :=
  NoDup (map fst gs) /\
  Forall (fun g => snd g <> []) gs /\
  Permutation kvs (ungroup gs).

Definition valid_shuffle (sh : shuffle) : Prop :=
  forall kvs, is_grouping kvs (sh kvs).

(** A reference shuffle: groups in the order in which their keys first
    appear, values in the order in which they were emitted. *)
Fixpoint add_to_group (k v : pyval) (gs : list group) : list group :=
  match gs with
  | [] => [(k, [v])]
  | (k', vs) :: rest =>
      if pyval_eq_dec k k' then (k', vs ++ [v]) :: rest
      else (k', vs) :: add_to_group k v rest
  end.

Definition group_by_key : shuffle :=
  fun kvs => fold_left (fun gs kv => add_to_group (fst kv) (snd kv) gs) kvs [].

(** The same groups, last group first and every group's values reversed. *)
Definition group_by_key_rev : shuffle :=
  fun kvs => rev (map (fun g => (fst g, rev (snd g))) (group_by_key kvs)).

End MapReduce.
Import MapReduce.

(** ** The job: class [SocRecSys] *)

Module SocRecSys.

(** [self.options]: the two pass-through options.  Their values are whatever
    the option parser stored, so they are plain Python values. *)
Record options : Type := { avg : pyval; topk : pyval }.

(** [configure_options]: [--avge] with default ['3'] (a string) stored as
    [avg], and [--topk] with default [25]. *)
Definition configure_options : options :=
  {| avg := PyStr "3"; topk := PyInt 25 |}.

Definition inputmap (key line : pyval) : gen :=
  match line with
  | PyStr text =>
      let parts := split tab text in
      if Nat.eqb (List.length parts) 8 then
        (* rating data *)
        let objid := strip (nth 0 parts "") in
        let uid := strip (nth 1 parts "") in
        match int_of_str (nth 2 parts "") with
        | Raise e => raise e
        | Ok rat => yield (PyStr uid) (PyTuple [PyStr objid; PyInt rat])
        end
      else if Nat.eqb (List.length parts) 4 then
        (* user data *)
        let myid := strip (nth 0 parts "") in
        let otherid := strip (nth 1 parts "") in
        match int_of_str (nth 2 parts "") with
        | Raise e => raise e
        | Ok value =>
            if 0 <? value then yield (PyStr otherid) (PyTuple [PyStr myid])
            else nothing
        end
      else nothing
  | _ => raise AttributeError
  end.

(** The first loop of [joinred]: one-item values are truster markers, all
    others are kept as rating pairs. *)
Fixpoint joinred_split (vals tusers ratobjs : list pyval)
    : result (list pyval * list pyval) :=
  match vals with
  | [] => Ok (tusers, ratobjs)
  | val :: rest =>
      n <- py_len val ;;
      if Nat.eqb n 1 then
        u <- py_getitem val 0 ;; joinred_split rest (tusers ++ [u]) ratobjs
      else joinred_split rest tusers (ratobjs ++ [val])
  end.

(** The second, nested loop of [joinred]: it yields as it goes, and an item
    of [ratobjs] that does not unpack into two stops it. *)
Fixpoint joinred_emit (tusers ratobjs : list pyval) : gen :=
  match ratobjs with
  | [] => nothing
  | val :: rest =>
      match unpack2 val with
      | Raise e => raise e
      | Ok (objid, rat) =>
          let ys := map (fun uid => (PyTuple [uid; objid], rat)) tusers in
          let '(more, e) := joinred_emit tusers rest in
          (ys ++ more, e)
      end
  end.

Definition joinred (key : pyval) (vals : list pyval) : gen :=
  match joinred_split vals [] [] with
  | Raise e => raise e
  | Ok (tusers, ratobjs) => joinred_emit tusers ratobjs
  end.

(** The loop of [sumred]: [s += val; n += 1]. *)
Fixpoint sumred_loop (vals : list pyval) (s : spec_float) (n : Z)
    : result (spec_float * Z) :=
  match vals with
  | [] => Ok (s, n)
  | val :: rest => s' <- float_add s val ;; sumred_loop rest s' (n + 1)
  end.

Definition sumred (opts : options) (key : pyval) (vals : list pyval) : gen :=
  let score :=
    sn <- sumred_loop vals fzero 0 ;;
    (* the smoothed average of ratings *)
    t <- float_add (fst sn) (avg opts) ;;
    d <- float_of_int (snd sn + 1) ;;
    float_div t d in
  match score with
  | Raise e => raise e
  | Ok q => yield key (PyFloat q)
  end.

Definition rowgroupmap (key val : pyval) : gen :=
  match (k0 <- py_getitem key 0 ;; k1 <- py_getitem key 1 ;; Ok (k0, k1)) with
  | Raise e => raise e
  | Ok (k0, k1) => yield k0 (PyTuple [k1; val])
  end.

Definition topkoutput (opts : options) (key : pyval) (vals : list pyval)
    : gen :=
  let recs :=
    vals <- py_sorted vals [("key", itemgetter 1);
                            ("reversed", ArgVal (PyBool true))] ;;
    let k := topk opts in
    idx <- xrange (py_min k (PyInt (Z.of_nat (List.length vals)))) ;;
    Ok (flat_map (fun i => match nth_error vals i with
                           | Some x => [x]
                           | None => []
                           end) idx) in
  match recs with
  | Raise e => raise e
  | Ok recs => yield key (PyList recs)
  end.

Definition steps (opts : options) : list step :=
  [ mr (Some inputmap) joinred;
    mr None (sumred opts);
    mr (Some rowgroupmap) (topkoutput opts) ].

(** [SocRecSys.run()] on the lines of the input, with the given options and
    shuffle. *)
Definition run (sh : shuffle) (opts : options) (lines : list string)
    : result (list record) :=
  run_steps sh (steps opts) (read_lines lines).

(** The first step alone: the classifier and the join. *)
Definition join_stage (sh : shuffle) (lines : list string)
    : result (list record) :=
  run_step sh (mr (Some inputmap) joinred) (read_lines lines).

End SocRecSys.
Import SocRecSys.

(** ** Vocabulary of the properties *)

(** The two kinds of values a join key receives from [inputmap]: the marker
    [(myid,)] of a truster and the pair [(objid, rat)] of a rating. *)
Inductive join_value : Type :=
| Truster (uid : pyval)
| Rating (objid rat : pyval).

Definition encode (j : join_value) : pyval :=
  match j with
  | Truster uid => PyTuple [uid]
  | Rating objid rat => PyTuple [objid; rat]
  end.

Definition trusters_of (js : list join_value) : list pyval :=
  flat_map (fun j => match j with Truster u => [u] | Rating _ _ => [] end) js.

Definition ratings_of (js : list join_value) : list (pyval * pyval) :=
  flat_map (fun j => match j with Truster _ => [] | Rating o r => [(o, r)] end) js.

(** The contributions of a group: for every rating, in order, one record
    per truster, in order. *)
Definition fan_out (tusers : list pyval) (ratings : list (pyval * pyval))
    : list record :=
  flat_map (fun objrat =>
              map (fun uid => (PyTuple [uid; fst objrat], snd objrat)) tusers)
           ratings.

(** Rows of the input, as text. *)
Definition row (fields : list string) : string :=
  String.concat (String tab "") fields.

Definition field_count (line : string) : nat := List.length (split tab line).

Definition field (i : nat) (line : string) : string :=
  nth i (split tab line) "".

(** The rows the specification calls InvalidNumericField, in its words: the
    rating or trust value fails to parse as an integer, or the rating falls
    outside 1-5, or the trust value outside {-1, +1}. *)
Definition invalid_numeric_field (line : string) : Prop :=
  (field_count line = 8%nat /\
   ((exists e, int_of_str (field 2 line) = Raise e) \/
    (exists r, int_of_str (field 2 line) = Ok r /\ (r < 1 \/ 5 < r)))) \/
  (field_count line = 4%nat /\
   ((exists e, int_of_str (field 2 line) = Raise e) \/
    (exists v, int_of_str (field 2 line) = Ok v /\ v <> -1 /\ v <> 1))).

(** A field that can stand in a row: it holds no tab. *)
Definition tab_free (s : string) : Prop := ~ In tab (list_ascii_of_string s).

(** Padding: a string of whitespace characters only. *)
Definition blank (s : string) : Prop :=
  forallb is_space (list_ascii_of_string s) = true.

(** The values recorded under a key, in the order of the records. *)
Definition values_at (k : pyval) (kvs : list record) : list pyval :=
  map snd
      (filter (fun kv => if pyval_eq_dec (fst kv) k then true else false) kvs).

(** What a run leaves behind: its output records, or nothing when a task
    raised and the job failed. *)
Definition output_of (r : result (list record)) : option (list record) :=
  match r with
  | Ok out => Some out
  | Raise _ => None
  end.

(** ** The join reducer *)

Section Joinred.

Lemma joinred_split_encoded (js : list join_value) :
  forall tusers ratobjs,
    joinred_split (map encode js) tusers ratobjs =
    Ok (tusers ++ trusters_of js,
        ratobjs ++ map (fun objrat => PyTuple [fst objrat; snd objrat])
                       (ratings_of js)).
Proof.
  induction js as [| j js IH]; intros tusers ratobjs; simpl.
  - now rewrite !app_nil_r.
  - destruct j as [uid | objid rat]; simpl; rewrite IH, <- app_assoc;
      reflexivity.
Qed.

Lemma joinred_emit_pairs (tusers : list pyval) :
  forall ratings,
    joinred_emit tusers
      (map (fun objrat => PyTuple [fst objrat; snd objrat]) ratings) =
    (fan_out tusers ratings, None).
Proof.
  induction ratings as [| [objid rat] ratings IH]; simpl.
  - reflexivity.
  - rewrite IH. reflexivity.
Qed.

Lemma joinred_encoded (key : pyval) (js : list join_value) :
  joinred key (map encode js) =
  (fan_out (trusters_of js) (ratings_of js), None).
Proof.
  unfold joinred. rewrite joinred_split_encoded. simpl.
  apply joinred_emit_pairs.
Qed.

Lemma fan_out_length (tusers : list pyval) (ratings : list (pyval * pyval)) :
  List.length (fan_out tusers ratings) =
  (List.length ratings * List.length tusers)%nat.
Proof.
  unfold fan_out. induction ratings as [| objrat ratings IH].
  - reflexivity.
  - cbn [flat_map List.length]. rewrite length_app, length_map.
    cbn [Nat.mul]. f_equal. exact IH.
Qed.

Lemma fan_out_nil_l (ratings : list (pyval * pyval)) : fan_out [] ratings = [].
Proof. unfold fan_out. induction ratings; simpl; auto. Qed.

Lemma in_fan_out (tusers : list pyval) (ratings : list (pyval * pyval))
    (k v : pyval) :
  In (k, v) (fan_out tusers ratings) <->
  exists uid objid, In uid tusers /\ In (objid, v) ratings /\
                    k = PyTuple [uid; objid].
Proof.
  unfold fan_out. rewrite in_flat_map. split.
  - intros [[objid rat] [Hr Hin]]. apply in_map_iff in Hin.
    destruct Hin as [uid [Heq Hu]]. simpl in Heq. inversion Heq; subst.
    exists uid, objid. auto.
  - intros [uid [objid [Hu [Hr Hk]]]]. subst k. exists (objid, v).
    split; [assumption |]. apply in_map_iff. exists uid. auto.
Qed.

(** C3. For a join key whose grouped values are m truster markers and n
    rating pairs, [joinred] yields, without raising, exactly the n*m records
    keyed [(Ti, objid of Rj)], one for every rating Rj and truster Ti, each
    carrying Rj's rating value unchanged. *)
Theorem joinred_fan_out (key : pyval) (js : list join_value) :
  joinred key (map encode js) =
    (fan_out (trusters_of js) (ratings_of js), None) /\
  List.length (fan_out (trusters_of js) (ratings_of js)) =
    (List.length (ratings_of js) * List.length (trusters_of js))%nat /\
  (forall k rat,
      In (k, rat) (fan_out (trusters_of js) (ratings_of js)) <->
      exists uid objid, In uid (trusters_of js) /\
                        In (objid, rat) (ratings_of js) /\
                        k = PyTuple [uid; objid]).
Proof.
  split; [apply joinred_encoded |].
  split; [apply fan_out_length |].
  intros k rat. apply in_fan_out.
Qed.

(** C8. A join key that received rating pairs but no truster marker, or
    truster markers but no rating pair, yields nothing and does not raise. *)
Theorem joinred_one_sided (key : pyval) (js : list join_value) :
  trusters_of js = [] \/ ratings_of js = [] ->
  joinred key (map encode js) = nothing.
Proof.
  intros H. rewrite joinred_encoded. unfold nothing. f_equal.
  destruct H as [H | H]; rewrite H.
  - apply fan_out_nil_l.
  - reflexivity.
Qed.

Lemma joinred_one_sided_witness :
  joinred (PyStr "u1")
          (map encode [Rating (PyStr "o1") (PyInt 4);
                       Rating (PyStr "o2") (PyInt 5)]) = nothing /\
  joinred (PyStr "u1")
          (map encode [Truster (PyStr "a"); Truster (PyStr "b")]) = nothing.
Proof.
  split.
  - apply joinred_one_sided. left. reflexivity.
  - apply joinred_one_sided. right. reflexivity.
Defined.

End Joinred.

(** ** The classifier *)

Section Inputmap.

Lemma unsigned_literal_error (s : string) (e : pyerr) :
  unsigned_literal s = Raise e -> e = ValueError.
Proof.
  unfold unsigned_literal. destruct s as [| c s]; [congruence |].
  destruct (digits_value 0 (String c s)); congruence.
Qed.

(** [int] of a string raises nothing but [ValueError]. *)
Lemma int_of_str_error (s : string) (e : pyerr) :
  int_of_str s = Raise e -> e = ValueError.
Proof.
  unfold int_of_str. destruct (strip s) as [| c body]; [congruence |].
  destruct (Ascii.eqb c "+"); [apply unsigned_literal_error |].
  destruct (Ascii.eqb c "-"); [| apply unsigned_literal_error].
  destruct (unsigned_literal body) eqn:E; simpl; [congruence |].
  intros H. inversion H; subst. eapply unsigned_literal_error; eauto.
Qed.

Lemma inputmap_rating_row (key : pyval) (line : string) :
  field_count line = 8%nat ->
  inputmap key (PyStr line) =
  match int_of_str (field 2 line) with
  | Raise e => raise e
  | Ok rat => yield (PyStr (strip (field 1 line)))
                    (PyTuple [PyStr (strip (field 0 line)); PyInt rat])
  end.
Proof.
  unfold field_count, field, inputmap. intros ->. reflexivity.
Qed.

Lemma inputmap_trust_row (key : pyval) (line : string) :
  field_count line = 4%nat ->
  inputmap key (PyStr line) =
  match int_of_str (field 2 line) with
  | Raise e => raise e
  | Ok value =>
      if 0 <? value
      then yield (PyStr (strip (field 1 line)))
                 (PyTuple [PyStr (strip (field 0 line))])
      else nothing
  end.
Proof.
  unfold field_count, field, inputmap. intros ->. reflexivity.
Qed.

Lemma inputmap_other_row (key : pyval) (line : string) :
  field_count line <> 8%nat -> field_count line <> 4%nat ->
  inputmap key (PyStr line) = nothing.
Proof.
  unfold field_count, inputmap. intros H8 H4.
  apply Nat.eqb_neq in H8, H4. rewrite H8, H4. reflexivity.
Qed.

(** A task that yields nothing can be left out of a phase. *)
Lemma collect_nothing (outs : list gen) : collect (nothing :: outs) = collect outs.
Proof.
  simpl. destruct (collect outs); reflexivity.
Qed.

Lemma collect_cons_eq (g : gen) (outs outs' : list gen) :
  collect outs = collect outs' -> collect (g :: outs) = collect (g :: outs').
Proof.
  intros H. destruct g as [ys [e |]]; simpl; [reflexivity |]. now rewrite H.
Qed.

Lemma map_phase_skip (m : option mapper) (k v : pyval)
    (before after : list record) :
  mapper_of m k v = nothing ->
  map_phase m (before ++ (k, v) :: after) = map_phase m (before ++ after).
Proof.
  intros Hskip. unfold map_phase.
  induction before as [| kv before IH]; simpl.
  - rewrite Hskip. apply collect_nothing.
  - apply collect_cons_eq. exact IH.
Qed.

Lemma read_lines_app (before after : list string) :
  read_lines (before ++ after) = read_lines before ++ read_lines after.
Proof. unfold read_lines. apply map_app. Qed.

(** A line on which [inputmap] yields nothing changes neither the join stage
    nor the run. *)
Lemma skipped_line_join_stage (sh : shuffle) (line : string)
    (before after : list string) :
  inputmap PyNone (PyStr line) = nothing ->
  join_stage sh (before ++ line :: after) = join_stage sh (before ++ after).
Proof.
  intros Hskip. unfold join_stage, run_step. cbn [step_mapper step_reducer].
  rewrite !read_lines_app. cbn [read_lines map].
  rewrite (map_phase_skip (Some inputmap)); [reflexivity | exact Hskip].
Qed.

Lemma run_from_join_stage (sh : shuffle) (opts : options) (lines : list string) :
  run sh opts lines =
  (out <- join_stage sh lines ;;
   run_steps sh [mr None (sumred opts);
                 mr (Some rowgroupmap) (topkoutput opts)] out).
Proof. reflexivity. Qed.

Lemma skipped_line_run (sh : shuffle) (opts : options) (line : string)
    (before after : list string) :
  inputmap PyNone (PyStr line) = nothing ->
  run sh opts (before ++ line :: after) = run sh opts (before ++ after).
Proof.
  intros Hskip. rewrite !run_from_join_stage.
  now rewrite (skipped_line_join_stage sh line before after Hskip).
Qed.

(** C6. A line whose number of tab-separated fields is neither 8 nor 4 makes
    [inputmap] yield nothing without raising, and a run whose input contains
    such a line gives what the run without the line gives. *)
Theorem malformed_row_dropped (key : pyval) (line : string) :
  field_count line <> 8%nat -> field_count line <> 4%nat ->
  inputmap key (PyStr line) = nothing /\
  (forall sh opts before after,
      run sh opts (before ++ line :: after) = run sh opts (before ++ after)).
Proof.
  intros H8 H4. split.
  - now apply inputmap_other_row.
  - intros sh opts before after. apply skipped_line_run.
    now apply inputmap_other_row.
Qed.

Lemma malformed_row_dropped_witness :
  inputmap PyNone (PyStr (row ["a"; "b"; "c"; "d"; "e"])) = nothing /\
  (forall sh opts before after,
      run sh opts (before ++ row ["a"; "b"; "c"; "d"; "e"] :: after) =
      run sh opts (before ++ after)).
Proof.
  apply malformed_row_dropped; vm_compute; discriminate.
Defined.

(** C7. A 4-field row whose trust value parses to zero or to a negative
    integer makes [inputmap] yield nothing, so the join stage of an input
    with that row, whatever the other rows are, gives what it gives without
    the row. *)
Theorem nonpositive_trust_excluded (key : pyval) (line : string) (v : Z) :
  field_count line = 4%nat ->
  int_of_str (field 2 line) = Ok v ->
  v <= 0 ->
  inputmap key (PyStr line) = nothing /\
  (forall sh before after,
      join_stage sh (before ++ line :: after) = join_stage sh (before ++ after)).
Proof.
  intros H4 Hv Hle.
  assert (Hskip : forall k, inputmap k (PyStr line) = nothing).
  { intros k. rewrite inputmap_trust_row by assumption. rewrite Hv.
    destruct (0 <? v) eqn:E; [apply Z.ltb_lt in E; lia | reflexivity]. }
  split; [apply Hskip |].
  intros sh before after. apply skipped_line_join_stage. apply Hskip.
Qed.

Lemma nonpositive_trust_excluded_witness :
  inputmap PyNone (PyStr (row ["a"; "u1"; "-1"; "c"])) = nothing /\
  (forall sh before after,
      join_stage sh (before ++ row ["a"; "u1"; "-1"; "c"] :: after) =
      join_stage sh (before ++ after)).
Proof.
  apply (nonpositive_trust_excluded PyNone (row ["a"; "u1"; "-1"; "c"]) (-1)).
  - reflexivity.
  - reflexivity.
  - lia.
Defined.

(** C10. Two 8-field rows with the same first three fields make [inputmap]
    do the same thing, whatever their five other fields are; when the rating
    parses, that is to yield the keyed tuple: no row is left out for its
    status. *)
Theorem inputmap_ignores_status (key key' : pyval) (line line' : string) :
  field_count line = 8%nat -> field_count line' = 8%nat ->
  field 0 line = field 0 line' ->
  field 1 line = field 1 line' ->
  field 2 line = field 2 line' ->
  inputmap key (PyStr line) = inputmap key' (PyStr line') /\
  (forall rat, int_of_str (field 2 line) = Ok rat ->
     inputmap key' (PyStr line') =
     yield (PyStr (strip (field 1 line)))
           (PyTuple [PyStr (strip (field 0 line)); PyInt rat])).
Proof.
  intros H8 H8' H0 H1 H2.
  rewrite (inputmap_rating_row key line H8).
  rewrite (inputmap_rating_row key' line' H8').
  rewrite <- H0, <- H1, <- H2. split; [reflexivity |].
  intros rat ->. reflexivity.
Qed.

Lemma inputmap_ignores_status_witness :
  inputmap PyNone (PyStr (row ["o1"; "u1"; "4"; "1"; "c"; "m"; "t"; "1"])) =
  inputmap PyNone (PyStr (row ["o1"; "u1"; "4"; "0"; "x"; "y"; "z"; "0"])) /\
  (forall rat,
     int_of_str (field 2 (row ["o1"; "u1"; "4"; "1"; "c"; "m"; "t"; "1"])) =
       Ok rat ->
     inputmap PyNone (PyStr (row ["o1"; "u1"; "4"; "0"; "x"; "y"; "z"; "0"])) =
     yield (PyStr (strip (field 1 (row ["o1"; "u1"; "4"; "1"; "c"; "m"; "t"; "1"]))))
           (PyTuple
              [PyStr (strip (field 0 (row ["o1"; "u1"; "4"; "1"; "c"; "m"; "t"; "1"])));
               PyInt rat])).
Proof.
  apply inputmap_ignores_status; reflexivity.
Defined.

(** C4, as the code has it.  [inputmap] checks no number: in an 8-field or a
    4-field row a third field that [int] rejects makes it raise [ValueError];
    a rating that parses is yielded whatever its value; a trust value that
    parses is yielded as a truster marker when it is positive and dropped
    otherwise, whether or not it is -1 or +1. *)
Theorem inputmap_numeric_field (key : pyval) (line : string) :
  field_count line = 8%nat \/ field_count line = 4%nat ->
  (forall e, int_of_str (field 2 line) = Raise e ->
     inputmap key (PyStr line) = raise ValueError) /\
  (forall rat, field_count line = 8%nat ->
     int_of_str (field 2 line) = Ok rat ->
     inputmap key (PyStr line) =
     yield (PyStr (strip (field 1 line)))
           (PyTuple [PyStr (strip (field 0 line)); PyInt rat])) /\
  (forall value, field_count line = 4%nat ->
     int_of_str (field 2 line) = Ok value ->
     inputmap key (PyStr line) =
     if 0 <? value
     then yield (PyStr (strip (field 1 line)))
                (PyTuple [PyStr (strip (field 0 line))])
     else nothing).
Proof.
  intros Hcount. split; [| split].
  - intros e He. pose proof (int_of_str_error _ _ He) as ->.
    destruct Hcount as [H | H].
    + rewrite inputmap_rating_row by assumption. now rewrite He.
    + rewrite inputmap_trust_row by assumption. now rewrite He.
  - intros rat H Hrat. rewrite inputmap_rating_row by assumption.
    now rewrite Hrat.
  - intros value H Hval. rewrite inputmap_trust_row by assumption.
    now rewrite Hval.
Qed.

Lemma inputmap_numeric_field_witness :
  inputmap PyNone (PyStr (row ["o1"; "u1"; "9"; "1"; "c"; "m"; "t"; "1"])) =
  yield (PyStr "u1") (PyTuple [PyStr "o1"; PyInt 9]).
Proof.
  apply (inputmap_numeric_field PyNone
           (row ["o1"; "u1"; "9"; "1"; "c"; "m"; "t"; "1"])).
  - left. reflexivity.
  - reflexivity.
  - reflexivity.
Defined.

(** C4 as the specification states it fails: three rows with an invalid
    numeric field that [inputmap] does not skip.  A rating of 9 is yielded, a
    trust value of 2 is yielded, and a rating that is not a number raises. *)
Lemma invalid_numeric_field_not_skipped :
  (invalid_numeric_field (row ["o1"; "u1"; "9"; "1"; "c"; "m"; "t"; "1"]) /\
   inputmap PyNone (PyStr (row ["o1"; "u1"; "9"; "1"; "c"; "m"; "t"; "1"])) =
   yield (PyStr "u1") (PyTuple [PyStr "o1"; PyInt 9])) /\
  (invalid_numeric_field (row ["a"; "u1"; "2"; "c"]) /\
   inputmap PyNone (PyStr (row ["a"; "u1"; "2"; "c"])) =
   yield (PyStr "u1") (PyTuple [PyStr "a"])) /\
  (invalid_numeric_field (row ["o1"; "u1"; "x"; "1"; "c"; "m"; "t"; "1"]) /\
   inputmap PyNone (PyStr (row ["o1"; "u1"; "x"; "1"; "c"; "m"; "t"; "1"])) =
   raise ValueError) /\
  ~ (forall line, invalid_numeric_field line ->
                  inputmap PyNone (PyStr line) = nothing).
Proof.
  assert (H9 : invalid_numeric_field
                 (row ["o1"; "u1"; "9"; "1"; "c"; "m"; "t"; "1"])).
  { left. split; [reflexivity |]. right. exists 9. split; [reflexivity | lia]. }
  repeat split.
  - exact H9.
  - right. split; [reflexivity |]. right. exists 2.
    split; [reflexivity | lia].
  - left. split; [reflexivity |]. left. exists ValueError. reflexivity.
  - intros Hall. specialize (Hall _ H9). vm_compute in Hall. discriminate.
Qed.

End Inputmap.

(** ** The shuffle *)

Section Shuffle.

Lemma ungroup_cons (g : group) (gs : list group) :
  ungroup (g :: gs) = map (pair (fst g)) (snd g) ++ ungroup gs.
Proof. reflexivity. Qed.

Lemma in_ungroup (gs : list group) (k v : pyval) :
  In (k, v) (ungroup gs) <-> exists vs, In (k, vs) gs /\ In v vs.
Proof.
  unfold ungroup. rewrite in_flat_map. split.
  - intros [[k' vs] [Hg Hin]]. simpl in Hin. apply in_map_iff in Hin.
    destruct Hin as [v' [Heq Hv]]. inversion Heq; subst. exists vs. auto.
  - intros [vs [Hg Hv]]. exists (k, vs). split; [assumption |].
    simpl. apply in_map. assumption.
Qed.

Lemma grouping_in (kvs : list record) (gs : list group) (k v : pyval) :
  is_grouping kvs gs ->
  (In (k, v) kvs <-> exists vs, In (k, vs) gs /\ In v vs).
Proof.
  intros [_ [_ Hperm]]. rewrite <- in_ungroup. split; intros H.
  - eapply Permutation_in; eauto.
  - eapply Permutation_in; [apply Permutation_sym |]; eauto.
Qed.

Lemma grouping_key_unique (gs : list group) (k : pyval) (vs vs' : list pyval) :
  NoDup (map fst gs) -> In (k, vs) gs -> In (k, vs') gs -> vs = vs'.
Proof.
  induction gs as [| [k0 vs0] gs IH]; simpl; intros Hnd H H'; [contradiction |].
  inversion Hnd as [| ? ? Hnotin Hnd']; subst.
  destruct H as [H | H], H' as [H' | H'].
  - congruence.
  - inversion H; subst. exfalso. apply Hnotin.
    apply (in_map fst) in H'. exact H'.
  - inversion H'; subst. exfalso. apply Hnotin.
    apply (in_map fst) in H. exact H.
  - now apply IH.
Qed.

Lemma grouping_nil (gs : list group) : is_grouping [] gs -> gs = [].
Proof.
  intros [_ [Hne Hperm]]. apply Permutation_nil in Hperm.
  destruct gs as [| [k vs] gs]; [reflexivity |].
  inversion Hne as [| ? ? Hvs _]; subst. simpl in Hvs.
  rewrite ungroup_cons in Hperm. simpl in Hperm.
  destruct vs; [congruence | discriminate].
Qed.

Lemma grouping_not_nil (kvs : list record) :
  kvs <> [] -> ~ is_grouping kvs [].
Proof.
  intros Hne [_ [_ Hperm]]. simpl in Hperm.
  apply Permutation_sym, Permutation_nil in Hperm. contradiction.
Qed.

Lemma add_to_group_keys (k v : pyval) (gs : list group) (k' : pyval) :
  In k' (map fst (add_to_group k v gs)) <-> k' = k \/ In k' (map fst gs).
Proof.
  induction gs as [| [k0 vs0] gs IH]; simpl.
  - intuition.
  - destruct (pyval_eq_dec k k0) as [-> | Hneq]; simpl.
    + intuition.
    + rewrite IH. intuition.
Qed.

Lemma add_to_group_NoDup (k v : pyval) (gs : list group) :
  NoDup (map fst gs) -> NoDup (map fst (add_to_group k v gs)).
Proof.
  induction gs as [| [k0 vs0] gs IH]; simpl; intros Hnd.
  - constructor; [intros [] | constructor].
  - inversion Hnd as [| ? ? Hnotin Hnd']; subst.
    destruct (pyval_eq_dec k k0) as [-> | Hneq]; simpl.
    + constructor; assumption.
    + constructor; [| now apply IH].
      rewrite add_to_group_keys. intros [H | H]; [congruence | contradiction].
Qed.

Lemma add_to_group_nonempty (k v : pyval) (gs : list group) :
  Forall (fun g : group => snd g <> []) gs ->
  Forall (fun g : group => snd g <> []) (add_to_group k v gs).
Proof.
  induction gs as [| [k0 vs0] gs IH]; simpl; intros Hall.
  - constructor; [discriminate | constructor].
  - inversion Hall; subst.
    destruct (pyval_eq_dec k k0); constructor; auto.
    simpl. intros Heq. apply app_eq_nil in Heq. destruct Heq; discriminate.
Qed.

Lemma add_to_group_ungroup (k v : pyval) (gs : list group) :
  Permutation ((k, v) :: ungroup gs) (ungroup (add_to_group k v gs)).
Proof.
  induction gs as [| [k0 vs0] gs IH]; simpl.
  - reflexivity.
  - destruct (pyval_eq_dec k k0) as [-> | Hneq]; rewrite !ungroup_cons; simpl.
    + rewrite map_app, <- app_assoc. simpl. apply Permutation_middle.
    + etransitivity; [apply Permutation_middle |].
      apply Permutation_app_head. exact IH.
Qed.

Lemma add_to_group_grouping (kvs : list record) (gs : list group)
    (k v : pyval) :
  is_grouping kvs gs -> is_grouping (kvs ++ [(k, v)]) (add_to_group k v gs).
Proof.
  intros [Hnd [Hne Hperm]]. split; [| split].
  - now apply add_to_group_NoDup.
  - now apply add_to_group_nonempty.
  - etransitivity; [| apply add_to_group_ungroup].
    etransitivity; [apply Permutation_sym, Permutation_cons_append |].
    now constructor.
Qed.

Lemma fold_add_to_group_grouping (kvs : list record) :
  forall done gs,
    is_grouping done gs ->
    is_grouping (done ++ kvs)
      (fold_left (fun gs kv => add_to_group (fst kv) (snd kv) gs) kvs gs).
Proof.
  induction kvs as [| [k v] kvs IH]; intros done gs Hg; simpl.
  - now rewrite app_nil_r.
  - pose proof (IH (done ++ [(k, v)]) (add_to_group k v gs)
                  (add_to_group_grouping done gs k v Hg)) as H.
    rewrite <- app_assoc in H. exact H.
Qed.

Lemma group_by_key_valid : valid_shuffle group_by_key.
Proof.
  intros kvs. unfold group_by_key.
  apply (fold_add_to_group_grouping kvs [] []).
  split; [constructor | split; [constructor | reflexivity]].
Qed.

Lemma ungroup_rev_values (gs : list group) :
  Permutation (ungroup gs)
              (ungroup (map (fun g : group => (fst g, rev (snd g))) gs)).
Proof.
  induction gs as [| [k vs] gs IH]; [reflexivity |].
  cbn [map]. rewrite !ungroup_cons. cbn [fst snd].
  apply Permutation_app; [| exact IH].
  apply Permutation_map, Permutation_rev.
Qed.

Lemma group_by_key_rev_valid : valid_shuffle group_by_key_rev.
Proof.
  intros kvs. destruct (group_by_key_valid kvs) as [Hnd [Hne Hperm]].
  unfold group_by_key_rev. split; [| split].
  - rewrite map_rev, map_map. simpl. apply NoDup_rev. exact Hnd.
  - apply Forall_rev. rewrite Forall_map. simpl.
    eapply Forall_impl; [| exact Hne]. intros [k vs] Hvs. simpl in *.
    intros Heq. apply Hvs. destruct vs; [reflexivity |].
    simpl in Heq. apply app_eq_nil in Heq. destruct Heq; discriminate.
  - etransitivity; [exact Hperm |].
    etransitivity; [apply ungroup_rev_values |].
    unfold ungroup. apply Permutation_flat_map, Permutation_rev.
Qed.

End Shuffle.

(** ** The aggregator *)

Section Sumred.

(** [sumred] either raises before it yields, or yields one record under the
    key it was given. *)
Lemma sumred_raises_or_yields (opts : options) (key : pyval) (vals : list pyval) :
  (exists e, sumred opts key vals = raise e) \/
  (exists q, sumred opts key vals = yield key (PyFloat q)).
Proof.
  unfold sumred.
  destruct (sn <- sumred_loop vals fzero 0 ;;
            t <- float_add (fst sn) (avg opts) ;;
            d <- float_of_int (snd sn + 1) ;; float_div t d) as [q | e].
  - right. exists q. reflexivity.
  - left. exists e. reflexivity.
Qed.

(** With a prior that is a string, which is all the option parser stores for
    [--avge], [sumred] never yields. *)
Lemma sumred_str_prior_raises (text : string) (k key : pyval)
    (vals : list pyval) :
  exists e, sumred {| avg := PyStr text; topk := k |} key vals = raise e.
Proof.
  unfold sumred. destruct (sumred_loop vals fzero 0) as [[s n] | e]; simpl.
  - exists TypeError. reflexivity.
  - exists e. reflexivity.
Qed.

(** With a numeric prior of 3 the ratings [4, 5] give 4.0. *)
Lemma sumred_numeric_prior_example (k key : pyval) :
  sumred {| avg := PyInt 3; topk := k |} key [PyInt 4; PyInt 5] =
    yield key (PyFloat (S754_finite false 4503599627370496 (-50))) /\
  float_of_int 4 = Ok (S754_finite false 4503599627370496 (-50)).
Proof. split; reflexivity. Qed.

(** C1, at the failing input.  Under the options [configure_options] sets
    up, the prior is the string ['3']: on the ratings [4, 5] the sum
    [s + self.options.avg] is a float plus a string, and [sumred] raises
    [TypeError] instead of yielding 4.0. *)
Theorem sumred_default_prior_raises (key : pyval) :
  sumred configure_options key [PyInt 4; PyInt 5] = raise TypeError.
Proof. reflexivity. Qed.

End Sumred.

(** ** The top-K selector *)

Section Topkoutput.

(** The call of [sorted] in [topkoutput] is rejected for its keyword
    [reversed]. *)
Lemma sorted_reversed_keyword (vals : list pyval) :
  py_sorted vals [("key", itemgetter 1); ("reversed", ArgVal (PyBool true))] =
  Raise TypeError.
Proof. reflexivity. Qed.

(** With the keyword [reverse] the same call sorts by descending score and
    keeps the items of equal score in their order of arrival. *)
Lemma sorted_reverse_example :
  py_sorted [PyTuple [PyStr "B"; PyInt 4]; PyTuple [PyStr "C"; PyInt 3];
             PyTuple [PyStr "A"; PyInt 4]; PyTuple [PyStr "D"; PyInt 5]]
            [("key", itemgetter 1); ("reverse", ArgVal (PyBool true))] =
  Ok [PyTuple [PyStr "D"; PyInt 5]; PyTuple [PyStr "B"; PyInt 4];
      PyTuple [PyStr "A"; PyInt 4]; PyTuple [PyStr "C"; PyInt 3]].
Proof. reflexivity. Qed.

(** C2, at every input.  [topkoutput] passes [sorted] the keyword
    [reversed], which [sorted] does not have: whatever the key, the scored
    items and the options, it raises [TypeError] and yields no list. *)
Theorem topkoutput_raises (opts : options) (key : pyval) (vals : list pyval) :
  topkoutput opts key vals = raise TypeError.
Proof. reflexivity. Qed.

End Topkoutput.

(** ** The whole job *)

Section Run.

Lemma collect_in (outs : list gen) :
  forall kvs kv,
    collect outs = Ok kvs -> In kv kvs -> exists g, In g outs /\ In kv (fst g).
Proof.
  induction outs as [| [ys [e |]] outs IH]; simpl; intros kvs kv Hc Hin.
  - inversion Hc; subst. contradiction.
  - discriminate.
  - destruct (collect outs) as [more |] eqn:E; simpl in Hc; [| discriminate].
    inversion Hc; subst. apply in_app_or in Hin. destruct Hin as [Hin | Hin].
    + exists (ys, None). auto.
    + destruct (IH more kv eq_refl Hin) as [g [Hg Hk]]. exists g. auto.
Qed.

Lemma collect_not_nil (outs : list gen) :
  outs <> [] ->
  (forall g, In g outs -> snd g = None -> fst g <> []) ->
  forall out, collect outs = Ok out -> out <> [].
Proof.
  destruct outs as [| [ys [e |]] outs]; simpl; intros Hne Hall out Hc.
  - congruence.
  - discriminate.
  - destruct (collect outs) as [more |]; simpl in Hc; [| discriminate].
    inversion Hc; subst. intros Heq. apply app_eq_nil in Heq.
    destruct Heq as [Hys _].
    apply (Hall (ys, None)); auto.
Qed.

Lemma map_phase_identity (input : list record) : map_phase None input = Ok input.
Proof.
  unfold map_phase, mapper_of, yield.
  induction input as [| [k v] input IH]; [reflexivity |].
  cbn [map collect fst snd]. rewrite IH. reflexivity.
Qed.

Lemma rowgroupmap_raises_or_yields (key val : pyval) :
  (exists e, rowgroupmap key val = raise e) \/
  (exists k v, rowgroupmap key val = yield k v).
Proof.
  unfold rowgroupmap.
  destruct (k0 <- py_getitem key 0 ;; k1 <- py_getitem key 1 ;; Ok (k0, k1))
    as [[k0 k1] | e].
  - right. eauto.
  - left. eauto.
Qed.

(** The second and third steps on an empty input give an empty output. *)
Lemma later_steps_nil (sh : shuffle) (opts : options) :
  valid_shuffle sh ->
  run_steps sh [mr None (sumred opts);
                mr (Some rowgroupmap) (topkoutput opts)] [] = Ok [].
Proof.
  intros Hsh. pose proof (grouping_nil _ (Hsh [])) as Hnil.
  cbn. rewrite Hnil. cbn. rewrite Hnil. reflexivity.
Qed.

(** On any other input they fail: whatever reaches [topkoutput] makes it
    raise. *)
Lemma later_steps_fail (sh : shuffle) (opts : options) (contribs : list record) :
  valid_shuffle sh -> contribs <> [] ->
  output_of (run_steps sh [mr None (sumred opts);
                           mr (Some rowgroupmap) (topkoutput opts)] contribs)
  = None.
Proof.
  intros Hsh Hne. cbn [run_steps]. unfold run_step at 1.
  cbn [step_mapper step_reducer]. rewrite map_phase_identity. cbn [bind].
  destruct (reduce_phase (sumred opts) (sh contribs)) as [scored |] eqn:E2;
    [| reflexivity].
  assert (Hscored : scored <> []).
  { unfold reduce_phase in E2. eapply collect_not_nil; [| | exact E2].
    - intros Hmap. apply map_eq_nil in Hmap.
      apply (grouping_not_nil contribs Hne).
      pose proof (Hsh contribs) as Hg. rewrite Hmap in Hg. exact Hg.
    - intros g Hg Hnone. apply in_map_iff in Hg. destruct Hg as [[k vs] [<- _]].
      cbn [fst snd] in *.
      destruct (sumred_raises_or_yields opts k vs) as [[e He] | [q Hq]].
      + rewrite He in Hnone. discriminate.
      + rewrite Hq. discriminate. }
  cbn [bind]. unfold run_step. cbn [step_mapper step_reducer].
  destruct (map_phase (Some rowgroupmap) scored) as [rows |] eqn:E3;
    [| reflexivity].
  assert (Hrows : rows <> []).
  { unfold map_phase in E3. eapply collect_not_nil; [| | exact E3].
    - intros Hmap. apply map_eq_nil in Hmap. contradiction.
    - intros g Hg Hnone. apply in_map_iff in Hg. destruct Hg as [[k v] [<- _]].
      cbn [mapper_of fst snd] in *.
      destruct (rowgroupmap_raises_or_yields k v) as [[e He] | [k' [v' Hy]]].
      + rewrite He in Hnone. discriminate.
      + rewrite Hy. discriminate. }
  cbn [bind]. unfold reduce_phase.
  destruct (sh rows) as [| [k vs] gs] eqn:Egs.
  - exfalso. apply (grouping_not_nil rows Hrows).
    pose proof (Hsh rows) as Hg. rewrite Egs in Hg. exact Hg.
  - reflexivity.
Qed.

(** C5, as the code has it.  No option is checked anywhere: a run fails only
    where a task raises.  Whatever the options are, a run whose join stage
    yields no contribution ends normally with an empty output. *)
Theorem options_never_checked (sh : shuffle) (opts : options)
    (lines : list string) :
  valid_shuffle sh ->
  join_stage sh lines = Ok [] ->
  run sh opts lines = Ok [].
Proof.
  intros Hsh Hjoin. rewrite run_from_join_stage, Hjoin. cbn [bind].
  now apply later_steps_nil.
Qed.

Lemma options_never_checked_witness :
  run group_by_key
      {| avg := PyFloat S754_nan; topk := PyInt (-1) |}
      [row ["o1"; "u1"; "4"; "1"; "c"; "m"; "t"; "1"];
       row ["a"; "u2"; "1"; "c"]] = Ok [].
Proof.
  apply options_never_checked.
  - apply group_by_key_valid.
  - reflexivity.
Defined.

(** C5 as the specification states it fails: with a negative [topk] and a
    prior that is not a number, a run over a rating and a trust edge that do
    not join reads its records and ends normally. *)
Lemma bad_options_run_succeeds :
  run group_by_key
      {| avg := PyFloat S754_nan; topk := PyInt (-1) |}
      [row ["o1"; "u1"; "4"; "1"; "c"; "m"; "t"; "1"];
       row ["a"; "u2"; "1"; "c"]] = Ok [] /\
  map_phase (Some inputmap)
      (read_lines [row ["o1"; "u1"; "4"; "1"; "c"; "m"; "t"; "1"];
                   row ["a"; "u2"; "1"; "c"]]) =
  Ok [(PyStr "u1", PyTuple [PyStr "o1"; PyInt 4]);
      (PyStr "u2", PyTuple [PyStr "a"])].
Proof. split; reflexivity. Qed.

(** *** The join stage under any shuffle *)

Lemma inputmap_yields_encoded (key line : pyval) (kv : record) :
  In kv (fst (inputmap key line)) -> exists j, snd kv = encode j.
Proof.
  unfold inputmap. destruct line as [| | | | text | |]; simpl; try tauto.
  destruct (Nat.eqb (List.length (split tab text)) 8).
  - destruct (int_of_str (nth 2 (split tab text) "")) as [rat |]; simpl;
      [| tauto].
    intros [<- | []]. eexists (Rating _ _). reflexivity.
  - destruct (Nat.eqb (List.length (split tab text)) 4); [| simpl; tauto].
    destruct (int_of_str (nth 2 (split tab text) "")) as [value |]; simpl;
      [| tauto].
    destruct (0 <? value); simpl; [| tauto].
    intros [<- | []]. eexists (Truster _). reflexivity.
Qed.

Lemma classified_encoded (lines : list string) (kvs : list record) :
  map_phase (Some inputmap) (read_lines lines) = Ok kvs ->
  forall k v, In (k, v) kvs -> exists j, v = encode j.
Proof.
  intros Hmap k v Hin. unfold map_phase in Hmap.
  destruct (collect_in _ _ _ Hmap Hin) as [g [Hg Hkv]].
  apply in_map_iff in Hg. destruct Hg as [[k0 l0] [<- _]].
  apply inputmap_yields_encoded in Hkv. exact Hkv.
Qed.

Lemma encoded_values (vs : list pyval) :
  (forall v, In v vs -> exists j, v = encode j) ->
  exists js, vs = map encode js.
Proof.
  induction vs as [| v vs IH]; intros Hall.
  - exists []. reflexivity.
  - destruct (Hall v (or_introl eq_refl)) as [j ->].
    destruct IH as [js ->]; [intros; apply Hall; now right |].
    exists (j :: js). reflexivity.
Qed.

Lemma in_trusters_of (js : list join_value) (u : pyval) :
  In u (trusters_of js) <-> In (encode (Truster u)) (map encode js).
Proof.
  unfold trusters_of. rewrite in_flat_map, in_map_iff. split.
  - intros [[u' | o r] [Hj Hin]]; simpl in Hin; [| contradiction].
    destruct Hin as [<- | []]. exists (Truster u'). auto.
  - intros [[u' | o r] [Heq Hj]]; simpl in Heq; inversion Heq; subst.
    exists (Truster u). simpl. auto.
Qed.

Lemma in_ratings_of (js : list join_value) (o r : pyval) :
  In (o, r) (ratings_of js) <-> In (encode (Rating o r)) (map encode js).
Proof.
  unfold ratings_of. rewrite in_flat_map, in_map_iff. split.
  - intros [[u' | o' r'] [Hj Hin]]; simpl in Hin; [contradiction |].
    destruct Hin as [Heq | []]. inversion Heq; subst.
    exists (Rating o r). auto.
  - intros [[u' | o' r'] [Heq Hj]]; simpl in Heq; inversion Heq; subst.
    exists (Rating o r). simpl. auto.
Qed.

(** The join reducer never raises on groups of classified rows, and what the
    reduce phase yields are the contributions of the groups. *)
Lemma reduce_joinred (gs : list group) :
  (forall k vs, In (k, vs) gs -> exists js, vs = map encode js) ->
  exists contribs,
    reduce_phase joinred gs = Ok contribs /\
    forall kv, In kv contribs <->
               exists k js, In (k, map encode js) gs /\
                            In kv (fan_out (trusters_of js) (ratings_of js)).
Proof.
  unfold reduce_phase. induction gs as [| [k vs] gs IH]; intros Henc.
  - exists []. split; [reflexivity |]. intros kv. split; [intros [] |].
    intros [k [js [[] _]]].
  - destruct (Henc k vs (or_introl eq_refl)) as [js ->].
    destruct IH as [more [Hmore Hin]];
      [intros k' vs' H'; apply (Henc k' vs'); now right |].
    exists (fan_out (trusters_of js) (ratings_of js) ++ more). split.
    + cbn [map fst snd]. rewrite joinred_encoded. cbn [collect].
      rewrite Hmore. reflexivity.
    + intros kv. rewrite in_app_iff, Hin. split.
      * intros [H | [k' [js' [Hg H]]]].
        -- exists k, js. split; [now left | exact H].
        -- exists k', js'. split; [now right | exact H].
      * intros [k' [js' [[Heq | Hg] H]]].
        -- inversion Heq as [[Hk Hvs]]. left.
           destruct kv as [key rat]. apply in_fan_out in H.
           destruct H as [uid [objid [Hu [Hr ->]]]].
           apply in_fan_out. exists uid, objid.
           rewrite in_trusters_of in *. rewrite in_ratings_of in *.
           rewrite Hvs. auto.
        -- right. exists k', js'. auto.
Qed.

(** Whether the join stage yields anything depends on the classified rows
    alone: it does when some key has both a truster marker and a rating. *)
Lemma join_nothing_iff (kvs : list record) (gs : list group) :
  (forall k v, In (k, v) kvs -> exists j, v = encode j) ->
  is_grouping kvs gs ->
  exists contribs,
    reduce_phase joinred gs = Ok contribs /\
    (contribs = [] <->
     ~ exists k u o r, In (k, encode (Truster u)) kvs /\
                       In (k, encode (Rating o r)) kvs).
Proof.
  intros Henc Hgrp.
  assert (Hgs : forall k vs, In (k, vs) gs -> exists js, vs = map encode js).
  { intros k vs Hin. apply encoded_values. intros v Hv.
    apply (Henc k v). apply (grouping_in kvs gs k v Hgrp). eauto. }
  destruct (reduce_joinred gs Hgs) as [contribs [Hred Hin]].
  exists contribs. split; [exact Hred |]. split.
  - intros -> [k [u [o [r [Hu Hr]]]]].
    apply (grouping_in kvs gs k _ Hgrp) in Hu, Hr.
    destruct Hu as [vs [Hg Hu]], Hr as [vs' [Hg' Hr]].
    destruct Hgrp as [Hnd _].
    pose proof (grouping_key_unique gs k vs vs' Hnd Hg Hg') as <-.
    destruct (Hgs k vs Hg) as [js ->].
    apply in_trusters_of in Hu. apply in_ratings_of in Hr.
    apply (proj2 (Hin (PyTuple [u; o], r))).
    exists k, js. split; [exact Hg |]. apply in_fan_out. exists u, o. auto.
  - intros Hnone. destruct contribs as [| [key rat] contribs]; [reflexivity |].
    exfalso. apply Hnone.
    destruct (proj1 (Hin (key, rat)) (or_introl eq_refl))
      as [k [js [Hg Hfan]]].
    apply in_fan_out in Hfan. destruct Hfan as [u [o [Hu [Hr _]]]].
    apply in_trusters_of in Hu. apply in_ratings_of in Hr.
    exists k, u, o, rat. split; apply (grouping_in kvs gs k _ Hgrp); eauto.
Qed.

(** What a run leaves behind, for any shuffle: nothing when a task raised in
    the classifier or when anything was joined, the empty output otherwise. *)
Lemma run_output (sh : shuffle) (opts : options) (lines : list string) :
  valid_shuffle sh ->
  output_of (run sh opts lines) =
  match map_phase (Some inputmap) (read_lines lines) with
  | Raise _ => None
  | Ok kvs =>
      match join_stage sh lines with
      | Ok [] => Some []
      | _ => None
      end
  end.
Proof.
  intros Hsh. rewrite run_from_join_stage.
  unfold join_stage, run_step. cbn [step_mapper step_reducer].
  destruct (map_phase (Some inputmap) (read_lines lines)) as [kvs |] eqn:Emap;
    [| reflexivity].
  cbn [bind].
  destruct (reduce_phase joinred (sh kvs)) as [[| c contribs] |];
    cbn [bind].
  - rewrite later_steps_nil by assumption. reflexivity.
  - apply later_steps_fail; [assumption | discriminate].
  - reflexivity.
Qed.

(** Two runs of the job on the same lines with the same options leave the
    same output behind under any two shuffles; by [run_output] that output
    is empty or absent, so this says nothing of keys, scores or ranks. *)
Lemma run_deterministic (sh sh' : shuffle) (opts : options)
    (lines : list string) :
  valid_shuffle sh -> valid_shuffle sh' ->
  output_of (run sh opts lines) = output_of (run sh' opts lines).
Proof.
  intros Hsh Hsh'. rewrite !run_output by assumption.
  unfold join_stage, run_step. cbn [step_mapper step_reducer].
  destruct (map_phase (Some inputmap) (read_lines lines)) as [kvs |] eqn:Emap;
    [| reflexivity].
  cbn [bind].
  pose proof (classified_encoded lines kvs Emap) as Henc.
  destruct (join_nothing_iff kvs (sh kvs) Henc (Hsh kvs))
    as [c [-> Hc]].
  destruct (join_nothing_iff kvs (sh' kvs) Henc (Hsh' kvs))
    as [c' [-> Hc']].
  destruct c as [| x c], c' as [| x' c']; try reflexivity.
  - assert (H : x' :: c' = []) by (apply Hc', Hc; reflexivity). discriminate.
  - assert (H : x :: c = []) by (apply Hc, Hc'; reflexivity). discriminate.
Qed.

Lemma run_deterministic_witness :
  output_of (run group_by_key configure_options
               [row ["o1"; "u1"; "4"; "1"; "c"; "m"; "t"; "1"];
                row ["o2"; "u1"; "5"; "1"; "c"; "m"; "t"; "1"];
                row ["a"; "u1"; "1"; "c"];
                row ["b"; "u1"; "1"; "c"]]) =
  output_of (run group_by_key_rev configure_options
               [row ["o1"; "u1"; "4"; "1"; "c"; "m"; "t"; "1"];
                row ["o2"; "u1"; "5"; "1"; "c"; "m"; "t"; "1"];
                row ["a"; "u1"; "1"; "c"];
                row ["b"; "u1"; "1"; "c"]]).
Proof.
  apply run_deterministic.
  - apply group_by_key_valid.
  - apply group_by_key_rev_valid.
Defined.

(** The two shuffles of the example do order the joined contributions
    differently. *)
Lemma shuffles_differ :
  join_stage group_by_key
    [row ["o1"; "u1"; "4"; "1"; "c"; "m"; "t"; "1"];
     row ["a"; "u1"; "1"; "c"]; row ["b"; "u1"; "1"; "c"]] =
  Ok [(PyTuple [PyStr "a"; PyStr "o1"], PyInt 4);
      (PyTuple [PyStr "b"; PyStr "o1"], PyInt 4)] /\
  join_stage group_by_key_rev
    [row ["o1"; "u1"; "4"; "1"; "c"; "m"; "t"; "1"];
     row ["a"; "u1"; "1"; "c"]; row ["b"; "u1"; "1"; "c"]] =
  Ok [(PyTuple [PyStr "b"; PyStr "o1"], PyInt 4);
      (PyTuple [PyStr "a"; PyStr "o1"], PyInt 4)].
Proof. split; reflexivity. Qed.

(** Which exception ends a failing run does depend on the shuffle, which is
    why runs are compared by their output.  Here the rating of one
    (truster, item) key is too large for a float ([OverflowError] in
    [s += val]) and the other key fails on the string prior ([TypeError]);
    the order of the two groups decides which task raises first. *)
Lemma failure_depends_on_shuffle :
  let big := String "1" (string_of_list_ascii (repeat "0"%char 400)) in
  let lines := [row ["o1"; "u1"; "4"; "1"; "c"; "m"; "t"; "1"];
                row ["a"; "u1"; "1"; "c"];
                row ["o2"; "u2"; big; "1"; "c"; "m"; "t"; "1"];
                row ["a"; "u2"; "1"; "c"];
                row ["o1"; "u3"; "5"; "1"; "c"; "m"; "t"; "1"];
                row ["a"; "u3"; "1"; "c"]] in
  run group_by_key configure_options lines = Raise TypeError /\
  run group_by_key_rev configure_options lines = Raise OverflowError.
Proof. split; vm_compute; reflexivity. Qed.

End Run.

(** ** Further properties of the join reducer *)

Section JoinredEdges.

Lemma items_of_error (v : pyval) (e : pyerr) :
  items_of v = Raise e -> e = TypeError.
Proof. destruct v; simpl; congruence. Qed.

Lemma joinred_split_app (js : list join_value) (rest : list pyval) :
  forall tusers ratobjs,
    joinred_split (map encode js ++ rest) tusers ratobjs =
    joinred_split rest (tusers ++ trusters_of js)
      (ratobjs ++ map (fun objrat => PyTuple [fst objrat; snd objrat])
                      (ratings_of js)).
Proof.
  induction js as [| j js IH]; intros tusers ratobjs; simpl.
  - now rewrite !app_nil_r.
  - destruct j as [uid | objid rat]; simpl; rewrite IH, <- app_assoc;
      reflexivity.
Qed.

Lemma joinred_emit_app (tusers : list pyval) (ratings : list (pyval * pyval))
    (rest : list pyval) :
  joinred_emit tusers
    (map (fun objrat => PyTuple [fst objrat; snd objrat]) ratings ++ rest) =
  (fan_out tusers ratings ++ fst (joinred_emit tusers rest),
   snd (joinred_emit tusers rest)).
Proof.
  induction ratings as [| [objid rat] ratings IH].
  - simpl. now destruct (joinred_emit tusers rest).
  - cbn [map app joinred_emit unpack2 items_of bind fst snd].
    rewrite IH. unfold fan_out. cbn [flat_map fst snd].
    now rewrite app_assoc.
Qed.

(** A grouped value that is a tuple of no item, or of three or more, is kept
    with the ratings.  The contributions of the ratings that came before it
    are yielded, for all the trusters of the group, also those that came
    after it; then unpacking it raises [ValueError], and the ratings after
    it yield nothing. *)
Theorem joinred_malformed_rating (key : pyval) (js js' : list join_value)
    (items : list pyval) :
  List.length items <> 1%nat -> List.length items <> 2%nat ->
  joinred key (map encode js ++ PyTuple items :: map encode js') =
  (fan_out (trusters_of js ++ trusters_of js') (ratings_of js),
   Some ValueError).
Proof.
  intros H1 H2. unfold joinred. rewrite joinred_split_app.
  cbn [joinred_split py_len items_of bind app].
  apply Nat.eqb_neq in H1. rewrite H1.
  rewrite joinred_split_encoded. rewrite <- (app_assoc _ [PyTuple items]).
  cbn [app]. rewrite joinred_emit_app.
  assert (Hbad : joinred_emit (trusters_of js ++ trusters_of js')
                   (PyTuple items ::
                    map (fun objrat => PyTuple [fst objrat; snd objrat])
                        (ratings_of js')) = raise ValueError).
  { cbn [joinred_emit unpack2 items_of bind].
    destruct items as [| a [| b [| c items]]]; try reflexivity.
    exfalso. apply H2. reflexivity. }
  cbn [app]. rewrite Hbad. cbn [raise fst snd]. now rewrite app_nil_r.
Qed.

Lemma joinred_malformed_rating_witness :
  joinred (PyStr "u1")
    (map encode [Rating (PyStr "o1") (PyInt 4); Truster (PyStr "a")] ++
     PyTuple [PyStr "o2"; PyInt 5; PyInt 1] ::
     map encode [Rating (PyStr "o3") (PyInt 2); Truster (PyStr "b")]) =
  (fan_out (trusters_of [Rating (PyStr "o1") (PyInt 4); Truster (PyStr "a")] ++
            trusters_of [Rating (PyStr "o3") (PyInt 2); Truster (PyStr "b")])
           (ratings_of [Rating (PyStr "o1") (PyInt 4); Truster (PyStr "a")]),
   Some ValueError).
Proof.
  apply joinred_malformed_rating; simpl; lia.
Defined.

Lemma joinred_split_not_sized (vals : list pyval) (v : pyval) (e : pyerr) :
  In v vals -> items_of v = Raise e ->
  forall tusers ratobjs, joinred_split vals tusers ratobjs = Raise TypeError.
Proof.
  intros Hin Hv. induction vals as [| val vals IH]; [contradiction |].
  intros tusers ratobjs. cbn [joinred_split]. unfold py_len, py_getitem.
  destruct (items_of val) as [l |] eqn:El; cbn [bind].
  - destruct Hin as [-> | Hin]; [congruence |].
    destruct (Nat.eqb (List.length l) 1) eqn:E1.
    + destruct l as [| x l]; [discriminate |]. cbn [nth_error bind].
      now apply IH.
    + now apply IH.
  - f_equal. eapply items_of_error; eauto.
Qed.

(** A grouped value that has no length ([None], a number) makes [joinred]
    raise [TypeError] before it yields anything, whatever the other values
    of the group are. *)
Theorem joinred_not_sized (key : pyval) (vals : list pyval) (v : pyval)
    (e : pyerr) :
  In v vals -> items_of v = Raise e ->
  joinred key vals = raise TypeError.
Proof.
  intros Hin Hv. unfold joinred.
  now rewrite (joinred_split_not_sized vals v e Hin Hv).
Qed.

Lemma joinred_not_sized_witness :
  joinred (PyStr "u1")
    [PyTuple [PyStr "a"]; PyTuple [PyStr "o1"; PyInt 4]; PyInt 7] =
  raise TypeError.
Proof.
  apply (joinred_not_sized _ _ (PyInt 7) TypeError).
  - simpl. auto.
  - reflexivity.
Defined.

Lemma trusters_of_perm (js js' : list join_value) :
  Permutation js js' -> Permutation (trusters_of js) (trusters_of js').
Proof. apply Permutation_flat_map. Qed.

Lemma ratings_of_perm (js js' : list join_value) :
  Permutation js js' -> Permutation (ratings_of js) (ratings_of js').
Proof. apply Permutation_flat_map. Qed.

Lemma fan_out_perm (tusers tusers' : list pyval)
    (ratings ratings' : list (pyval * pyval)) :
  Permutation tusers tusers' -> Permutation ratings ratings' ->
  Permutation (fan_out tusers ratings) (fan_out tusers' ratings').
Proof.
  intros Ht Hr. transitivity (fan_out tusers ratings').
  - unfold fan_out. now apply Permutation_flat_map.
  - unfold fan_out. clear Hr. induction ratings' as [| objrat rs IH].
    + reflexivity.
    + cbn [flat_map]. apply Permutation_app; [| exact IH].
      now apply Permutation_map.
Qed.

(** The order in which a group's values arrive changes the order of the
    contributions and nothing else: groups that are permutations of each
    other yield the same contributions, each as many times. *)
Theorem joinred_permutation (key : pyval) (js js' : list join_value) :
  Permutation js js' ->
  Permutation (fst (joinred key (map encode js)))
              (fst (joinred key (map encode js'))) /\
  snd (joinred key (map encode js)) = None /\
  snd (joinred key (map encode js')) = None.
Proof.
  intros Hp. rewrite !joinred_encoded. cbn [fst snd]. split; [| auto].
  apply fan_out_perm; [now apply trusters_of_perm | now apply ratings_of_perm].
Qed.

Lemma joinred_permutation_witness :
  Permutation
    (fst (joinred (PyStr "u1")
            (map encode [Truster (PyStr "a"); Rating (PyStr "o1") (PyInt 4);
                         Truster (PyStr "b")])))
    (fst (joinred (PyStr "u1")
            (map encode [Rating (PyStr "o1") (PyInt 4); Truster (PyStr "a");
                         Truster (PyStr "b")]))) /\
  snd (joinred (PyStr "u1")
         (map encode [Truster (PyStr "a"); Rating (PyStr "o1") (PyInt 4);
                      Truster (PyStr "b")])) = None /\
  snd (joinred (PyStr "u1")
         (map encode [Rating (PyStr "o1") (PyInt 4); Truster (PyStr "a");
                      Truster (PyStr "b")])) = None.
Proof.
  apply joinred_permutation. apply perm_swap.
Defined.

End JoinredEdges.

(** ** Further properties of the aggregator *)

Section SumredScore.

Lemma sumred_loop_ok (vals : list pyval) :
  forall s n s' n',
    sumred_loop vals s n = Ok (s', n') <->
    exists fs,
      Forall2 (fun v f => float_operand v = Ok f) vals fs /\
      s' = fold_left fadd fs s /\
      n' = n + Z.of_nat (List.length vals).
Proof.
  induction vals as [| val vals IH]; intros s n s' n'.
  - cbn [sumred_loop List.length fold_left]. split.
    + intros H. inversion H; subst. exists []. repeat split.
      * constructor.
      * lia.
    + intros [fs [Hfs [-> ->]]]. inversion Hfs; subst. cbn [fold_left].
      repeat f_equal. simpl. lia.
  - cbn [sumred_loop]. unfold float_add.
    destruct (float_operand val) as [f |] eqn:Ef; cbn [bind].
    + rewrite IH. split.
      * intros [fs [Hfs [-> ->]]]. exists (f :: fs). repeat split.
        -- now constructor.
        -- cbn [List.length]. lia.
      * intros [fs [Hfs [-> ->]]]. inversion Hfs as [| ? f' ? fs' Hf Hrest];
          subst. rewrite Ef in Hf. inversion Hf; subst.
        exists fs'. repeat split; [assumption |]. cbn [List.length]. lia.
    + split; [discriminate |].
      intros [fs [Hfs _]]. inversion Hfs; subst. congruence.
Qed.

(** [sumred] yields a score exactly when every grouped value and the prior
    are numbers that convert to float; the score is then the sum of the
    values, added to 0.0 from left to right in float arithmetic, plus the
    prior, divided by the number of values plus one. *)
Theorem sumred_score (opts : options) (key : pyval) (vals : list pyval)
    (q : spec_float) :
  sumred opts key vals = yield key (PyFloat q) <->
  exists fs a d,
    Forall2 (fun v f => float_operand v = Ok f) vals fs /\
    float_operand (avg opts) = Ok a /\
    float_of_int (Z.of_nat (List.length vals) + 1) = Ok d /\
    is_fzero d = false /\
    q = fdiv (fadd (fold_left fadd fs fzero) a) d.
Proof.
  unfold sumred, float_add, float_div. split.
  - destruct (sumred_loop vals fzero 0) as [[s n] |] eqn:Eloop; cbn [bind];
      [| discriminate].
    apply sumred_loop_ok in Eloop. destruct Eloop as [fs [Hfs [-> ->]]].
    cbn [fst snd].
    destruct (float_operand (avg opts)) as [a |]; cbn [bind];
      [| discriminate].
    destruct (float_of_int (0 + Z.of_nat (List.length vals) + 1)) as [d |] eqn:Ed;
      cbn [bind]; [| discriminate].
    destruct (is_fzero d) eqn:Ez; [discriminate |].
    intros H. inversion H; subst. exists fs, a, d.
    rewrite Z.add_0_l in Ed. auto.
  - intros [fs [a [d [Hfs [Ha [Hd [Hz ->]]]]]]].
    assert (Eloop : sumred_loop vals fzero 0 =
                    Ok (fold_left fadd fs fzero,
                        0 + Z.of_nat (List.length vals))).
    { apply sumred_loop_ok. exists fs. auto. }
    rewrite Eloop. cbn [bind fst snd]. rewrite Ha. cbn [bind].
    rewrite Z.add_0_l, Hd. cbn [bind]. rewrite Hz. reflexivity.
Qed.

End SumredScore.

(** ** Further properties of the classifier *)

Section InputmapRows.

Lemma split_tab_free (s : string) : tab_free s -> split tab s = [s].
Proof.
  unfold tab_free. induction s as [| c s IH]; intros Hfree; [reflexivity |].
  cbn [split]. destruct (Ascii.eqb c tab) eqn:E.
  - apply Ascii.eqb_eq in E. subst. exfalso. apply Hfree. now left.
  - rewrite IH; [reflexivity |]. intros Hin. apply Hfree. now right.
Qed.

Lemma split_field_then_tab (f rest : string) :
  tab_free f ->
  split tab (f ++ String tab rest)%string = f :: split tab rest.
Proof.
  unfold tab_free. induction f as [| c f IH]; intros Hfree.
  - cbn [String.append split]. now rewrite Ascii.eqb_refl.
  - cbn [String.append split]. destruct (Ascii.eqb c tab) eqn:E.
    + apply Ascii.eqb_eq in E. subst. exfalso. apply Hfree. now left.
    + rewrite IH; [reflexivity |]. intros Hin. apply Hfree. now right.
Qed.

(** Splitting a row gives back the fields it was built from. *)
Lemma split_row (fields : list string) :
  fields <> [] -> Forall tab_free fields -> split tab (row fields) = fields.
Proof.
  unfold row. induction fields as [| f fields IH]; intros Hne Hall;
    [congruence |].
  inversion Hall as [| ? ? Hf Hrest]; subst.
  destruct fields as [| g fields].
  - cbn [String.concat]. now apply split_tab_free.
  - change (String.concat (String tab "") (f :: g :: fields))
      with (f ++ String tab (String.concat (String tab "") (g :: fields)))%string.
    rewrite split_field_then_tab by assumption.
    rewrite IH; [reflexivity | discriminate | assumption].
Qed.

Lemma split_not_nil (sep : ascii) (s : string) : split sep s <> [].
Proof.
  destruct s as [| c s]; cbn [split]; [discriminate |].
  destruct (Ascii.eqb c sep); [discriminate |].
  destruct (split sep s); discriminate.
Qed.

(** Joining the pieces of a line with tabs gives the line back. *)
Lemma row_split (line : string) : row (split tab line) = line.
Proof.
  unfold row. induction line as [| c line IH]; [reflexivity |].
  cbn [split]. pose proof (split_not_nil tab line) as Hne.
  destruct (Ascii.eqb c tab) eqn:E.
  - apply Ascii.eqb_eq in E. subst.
    destruct (split tab line) as [| p ps] eqn:Es.
    + congruence.
    + change (String.concat (String tab "") ("" :: p :: ps))
        with (String tab (String.concat (String tab "") (p :: ps))).
      now rewrite IH.
  - destruct (split tab line) as [| p ps] eqn:Es.
    + congruence.
    + destruct ps as [| p' ps].
      * cbn [String.concat] in *. now subst.
      * change (String.concat (String tab "") (String c p :: p' :: ps))
          with (String c (p ++ String tab
                  (String.concat (String tab "") (p' :: ps))))%string.
        change (String.concat (String tab "") (p :: p' :: ps))
          with (p ++ String tab
                  (String.concat (String tab "") (p' :: ps)))%string in IH.
        now rewrite IH.
Qed.

(** The number of fields of a line is the number of its tabs plus one, so a
    line is a rating row when it has seven tabs and a trust row when it has
    three, empty fields included. *)
Theorem field_count_tabs (line : string) :
  field_count line =
  S (List.length (filter (Ascii.eqb tab) (list_ascii_of_string line))).
Proof.
  unfold field_count. induction line as [| c line IH]; [reflexivity |].
  cbn [split list_ascii_of_string filter]. rewrite (Ascii.eqb_sym tab c).
  destruct (Ascii.eqb c tab).
  - cbn [List.length]. now rewrite IH.
  - destruct (split tab line) as [| p ps]; [discriminate |].
    cbn [List.length] in *. exact IH.
Qed.

Lemma inputmap_row_fields (key : pyval) (f0 f1 f2 : string)
    (others : list string) :
  Forall tab_free (f0 :: f1 :: f2 :: others) ->
  (List.length others = 5%nat ->
   inputmap key (PyStr (row (f0 :: f1 :: f2 :: others))) =
   match int_of_str f2 with
   | Raise _ => raise ValueError
   | Ok rat => yield (PyStr (strip f1)) (PyTuple [PyStr (strip f0); PyInt rat])
   end) /\
  (List.length others = 1%nat ->
   inputmap key (PyStr (row (f0 :: f1 :: f2 :: others))) =
   match int_of_str f2 with
   | Raise _ => raise ValueError
   | Ok value => if 0 <? value
                 then yield (PyStr (strip f1)) (PyTuple [PyStr (strip f0)])
                 else nothing
   end).
Proof.
  intros Hfree.
  assert (Hsplit : split tab (row (f0 :: f1 :: f2 :: others)) =
                   f0 :: f1 :: f2 :: others)
    by (apply split_row; [discriminate | assumption]).
  split; intros Hlen.
  - rewrite inputmap_rating_row
      by (unfold field_count; rewrite Hsplit; cbn [List.length]; now rewrite Hlen).
    unfold field. rewrite Hsplit. cbn [nth].
    destruct (int_of_str f2) as [rat |] eqn:E; [reflexivity |].
    now rewrite (int_of_str_error _ _ E).
  - rewrite inputmap_trust_row
      by (unfold field_count; rewrite Hsplit; cbn [List.length]; now rewrite Hlen).
    unfold field. rewrite Hsplit. cbn [nth].
    destruct (int_of_str f2) as [value |] eqn:E; [reflexivity |].
    now rewrite (int_of_str_error _ _ E).
Qed.

(** A rating row built from eight fields without tabs, and a trust row built
    from four, are classified by those fields: the key is the stripped second
    field, the payload the stripped first field, with the rating read from
    the third field of a rating row; the other fields are not read. *)
Theorem inputmap_of_fields (key : pyval) (f0 f1 f2 : string)
    (others : list string) :
  Forall tab_free (f0 :: f1 :: f2 :: others) ->
  (List.length others = 5%nat ->
   inputmap key (PyStr (row (f0 :: f1 :: f2 :: others))) =
   match int_of_str f2 with
   | Raise _ => raise ValueError
   | Ok rat => yield (PyStr (strip f1)) (PyTuple [PyStr (strip f0); PyInt rat])
   end) /\
  (List.length others = 1%nat ->
   inputmap key (PyStr (row (f0 :: f1 :: f2 :: others))) =
   match int_of_str f2 with
   | Raise _ => raise ValueError
   | Ok value => if 0 <? value
                 then yield (PyStr (strip f1)) (PyTuple [PyStr (strip f0)])
                 else nothing
   end).
Proof. apply inputmap_row_fields. Qed.

Lemma inputmap_of_fields_witness :
  inputmap PyNone (PyStr (row ["o1"; " u1 "; "5"; "1"; "c"; "m"; "t"; "1"])) =
  match int_of_str "5" with
  | Raise _ => raise ValueError
  | Ok rat => yield (PyStr (strip " u1 ")) (PyTuple [PyStr (strip "o1"); PyInt rat])
  end.
Proof.
  apply (inputmap_of_fields PyNone "o1" " u1 " "5" ["1"; "c"; "m"; "t"; "1"]).
  - repeat constructor; vm_compute; intuition discriminate.
  - reflexivity.
Defined.

(** *** Whitespace around a field *)

Lemma lstrip_blank (pad : string) : blank pad -> lstrip pad = "".
Proof.
  unfold blank. induction pad as [| c pad IH]; [reflexivity |].
  cbn [list_ascii_of_string forallb lstrip]. intros H.
  apply andb_true_iff in H. destruct H as [-> H]. now apply IH.
Qed.

Lemma lstrip_pad (pad s : string) :
  blank pad -> lstrip (pad ++ s)%string = lstrip s.
Proof.
  unfold blank. induction pad as [| c pad IH]; [reflexivity |].
  cbn [list_ascii_of_string forallb String.append lstrip]. intros H.
  apply andb_true_iff in H. destruct H as [-> H]. now apply IH.
Qed.

Lemma rstrip_blank (pad : string) : blank pad -> rstrip pad = "".
Proof.
  unfold blank. induction pad as [| c pad IH]; [reflexivity |].
  cbn [list_ascii_of_string forallb rstrip]. intros H.
  apply andb_true_iff in H. destruct H as [Hc H].
  rewrite (IH H), Hc. reflexivity.
Qed.

Lemma rstrip_pad (s pad : string) :
  blank pad -> rstrip (s ++ pad)%string = rstrip s.
Proof.
  intros Hpad. induction s as [| c s IH].
  - cbn [String.append]. now rewrite rstrip_blank.
  - cbn [String.append rstrip]. now rewrite IH.
Qed.

Lemma strip_pad_right (s pad : string) :
  blank pad -> strip (s ++ pad) = strip s.
Proof.
  intros Hpad. unfold strip. induction s as [| c s IH].
  - cbn [String.append]. now rewrite lstrip_blank.
  - cbn [String.append lstrip]. destruct (is_space c); [exact IH |].
    now apply (rstrip_pad (String c s) pad).
Qed.

(** [strip] removes any whitespace put before and after a string. *)
Lemma strip_pad (pad s pad' : string) :
  blank pad -> blank pad' -> strip (pad ++ s ++ pad') = strip s.
Proof.
  intros Hpad Hpad'. unfold strip at 1. rewrite lstrip_pad by assumption.
  now apply strip_pad_right.
Qed.

Lemma int_of_str_pad (pad s pad' : string) :
  blank pad -> blank pad' -> int_of_str (pad ++ s ++ pad') = int_of_str s.
Proof.
  intros Hpad Hpad'. unfold int_of_str. now rewrite strip_pad.
Qed.

Lemma tab_free_app (s t : string) :
  tab_free s -> tab_free t -> tab_free (s ++ t).
Proof.
  unfold tab_free. induction s as [| c s IH]; intros Hs Ht; [exact Ht |].
  cbn [String.append list_ascii_of_string]. intros [Hc | Hin].
  - apply Hs. now left.
  - apply IH; [| assumption | assumption]. intros H. apply Hs. now right.
Qed.

(** Whitespace (other than tabs) around the first three fields of a row is
    ignored: the padded row is classified as the row without the padding,
    so [" u1 "] and ["u1"] are the same user. *)
Theorem inputmap_ignores_padding (key : pyval) (f0 f1 f2 : string)
    (others : list string) (l0 r0 l1 r1 l2 r2 : string) :
  Forall tab_free (f0 :: f1 :: f2 :: others) ->
  Forall tab_free [l0; r0; l1; r1; l2; r2] ->
  Forall blank [l0; r0; l1; r1; l2; r2] ->
  List.length others = 5%nat \/ List.length others = 1%nat ->
  inputmap key (PyStr (row ((l0 ++ f0 ++ r0)%string :: (l1 ++ f1 ++ r1)%string
                            :: (l2 ++ f2 ++ r2)%string :: others))) =
  inputmap key (PyStr (row (f0 :: f1 :: f2 :: others))).
Proof.
  intros Hf Hp Hb Hlen.
  inversion Hf as [| ? ? Hf0 Hf']; subst.
  inversion Hf' as [| ? ? Hf1 Hf'']; subst.
  inversion Hf'' as [| ? ? Hf2 Hothers]; subst.
  repeat match goal with
         | H : Forall _ (_ :: _) |- _ => inversion H; clear H; subst
         | H : Forall _ [] |- _ => clear H
         end.
  assert (Hpadded : Forall tab_free
            ((l0 ++ f0 ++ r0)%string :: (l1 ++ f1 ++ r1)%string
             :: (l2 ++ f2 ++ r2)%string :: others)).
  { repeat constructor; try assumption; repeat apply tab_free_app;
      assumption. }
  assert (Hplain : Forall tab_free (f0 :: f1 :: f2 :: others))
    by (repeat constructor; assumption).
  destruct (inputmap_row_fields key _ _ _ _ Hpadded) as [P8 P4].
  destruct (inputmap_row_fields key _ _ _ _ Hplain) as [Q8 Q4].
  destruct Hlen as [Hlen | Hlen].
  - rewrite (P8 Hlen), (Q8 Hlen). now rewrite int_of_str_pad, !strip_pad.
  - rewrite (P4 Hlen), (Q4 Hlen). now rewrite int_of_str_pad, !strip_pad.
Qed.

Lemma inputmap_ignores_padding_witness :
  inputmap PyNone
    (PyStr (row [(" " ++ "a" ++ "")%string; ("" ++ "u1" ++ "  ")%string;
                 (" " ++ "1" ++ " ")%string; "c"])) =
  inputmap PyNone (PyStr (row ["a"; "u1"; "1"; "c"])).
Proof.
  apply inputmap_ignores_padding.
  - repeat constructor; vm_compute; intuition discriminate.
  - repeat constructor; vm_compute; intuition discriminate.
  - repeat constructor.
  - right. reflexivity.
Defined.

(** [inputmap] yields at most one record and its shapes are few: nothing, a
    rating record, a truster marker, or an exception, which is [ValueError]
    for a line of text. *)
Theorem inputmap_outcomes (key : pyval) (text : string) :
  inputmap key (PyStr text) = nothing \/
  inputmap key (PyStr text) = raise ValueError \/
  (exists uid objid rat,
      inputmap key (PyStr text) =
      yield (PyStr uid) (PyTuple [PyStr objid; PyInt rat])) \/
  (exists otherid myid,
      inputmap key (PyStr text) = yield (PyStr otherid) (PyTuple [PyStr myid])).
Proof.
  destruct (Nat.eq_dec (field_count text) 8) as [H8 | H8].
  - rewrite inputmap_rating_row by assumption.
    destruct (int_of_str (field 2 text)) as [rat |] eqn:E.
    + right. right. left. eauto.
    + right. left. now rewrite (int_of_str_error _ _ E).
  - destruct (Nat.eq_dec (field_count text) 4) as [H4 | H4].
    + rewrite inputmap_trust_row by assumption.
      destruct (int_of_str (field 2 text)) as [value |] eqn:E.
      * destruct (0 <? value) eqn:Ev.
        -- right. right. right. eauto.
        -- now left.
      * right. left. now rewrite (int_of_str_error _ _ E).
    + left. now apply inputmap_other_row.
Qed.

End InputmapRows.

(** ** Further properties of the join stage and of the job *)

Section Stages.

Lemma collect_in_conv (outs : list gen) :
  forall kvs g kv,
    collect outs = Ok kvs -> In g outs -> In kv (fst g) -> In kv kvs.
Proof.
  induction outs as [| [ys [e |]] outs IH]; simpl; intros kvs g kv Hc Hg Hkv.
  - contradiction.
  - discriminate.
  - destruct (collect outs) as [more |] eqn:E; simpl in Hc; [| discriminate].
    inversion Hc; subst. apply in_or_app. destruct Hg as [<- | Hg].
    + now left.
    + right. eapply IH; eauto.
Qed.

Lemma collect_raise (outs : list gen) (e : pyerr) :
  collect outs = Raise e -> exists g, In g outs /\ snd g = Some e.
Proof.
  induction outs as [| [ys [e' |]] outs IH]; simpl; intros Hc.
  - discriminate.
  - inversion Hc; subst. exists (ys, Some e). auto.
  - destruct (collect outs) as [more |]; simpl in Hc; [discriminate |].
    inversion Hc; subst. destruct (IH eq_refl) as [g [Hg He]]. eauto.
Qed.

Lemma collect_ok_no_raise (outs : list gen) (kvs : list record) (g : gen) :
  collect outs = Ok kvs -> In g outs -> snd g = None.
Proof.
  revert kvs. induction outs as [| [ys [e' |]] outs IH]; simpl; intros kvs Hc Hg.
  - contradiction.
  - discriminate.
  - destruct (collect outs) as [more |]; simpl in Hc; [| discriminate].
    destruct Hg as [<- | Hg]; [reflexivity |]. eapply IH; eauto.
Qed.

(** The job never outputs a recommendation.  A run ends normally exactly
    when its join stage ends normally without any contribution, and its
    output is then empty; every other run fails. *)
Theorem run_never_recommends (sh : shuffle) (opts : options)
    (lines : list string) (out : list record) :
  valid_shuffle sh ->
  (run sh opts lines = Ok out <-> out = [] /\ join_stage sh lines = Ok []).
Proof.
  intros Hsh. rewrite run_from_join_stage. split.
  - destruct (join_stage sh lines) as [[| c contribs] |]; cbn [bind].
    + rewrite later_steps_nil by assumption. intros H. inversion H. auto.
    + intros H.
      pose proof (later_steps_fail sh opts (c :: contribs) Hsh) as Hfail.
      rewrite H in Hfail. discriminate Hfail. discriminate.
    + discriminate.
  - intros [-> ->]. cbn [bind]. now apply later_steps_nil.
Qed.

Lemma run_never_recommends_witness :
  run group_by_key configure_options
      [row ["o1"; "u1"; "4"; "1"; "c"; "m"; "t"; "1"]] = Ok [] <->
  @nil record = [] /\
  join_stage group_by_key [row ["o1"; "u1"; "4"; "1"; "c"; "m"; "t"; "1"]]
    = Ok [].
Proof.
  apply run_never_recommends. apply group_by_key_valid.
Defined.

(** What [inputmap] yields for a line, read off the line's fields. *)
Lemma inputmap_yields (key : pyval) (line : string) (k v : pyval) :
  In (k, v) (fst (inputmap key (PyStr line))) <->
  (field_count line = 8%nat /\
   exists rat, int_of_str (field 2 line) = Ok rat /\
               k = PyStr (strip (field 1 line)) /\
               v = PyTuple [PyStr (strip (field 0 line)); PyInt rat]) \/
  (field_count line = 4%nat /\
   exists value, int_of_str (field 2 line) = Ok value /\ 0 < value /\
                 k = PyStr (strip (field 1 line)) /\
                 v = PyTuple [PyStr (strip (field 0 line))]).
Proof.
  destruct (Nat.eq_dec (field_count line) 8) as [H8 | H8].
  - rewrite inputmap_rating_row by assumption.
    destruct (int_of_str (field 2 line)) as [rat |] eqn:E; simpl; split.
    + intros [Heq | []]. inversion Heq; subst. left. eauto.
    + intros [[_ [rat' [Hr [-> ->]]]] | [H4 _]]; [| congruence].
      inversion Hr; subst. now left.
    + contradiction.
    + intros [[_ [rat' [Hr _]]] | [H4 _]]; congruence.
  - destruct (Nat.eq_dec (field_count line) 4) as [H4 | H4].
    + rewrite inputmap_trust_row by assumption.
      destruct (int_of_str (field 2 line)) as [value |] eqn:E.
      * destruct (0 <? value) eqn:Ev; simpl; split.
        -- intros [Heq | []]. inversion Heq; subst. right.
           apply Z.ltb_lt in Ev. eauto 8.
        -- intros [[H _] | [_ [value' [Hv [_ [-> ->]]]]]]; [congruence |].
           now left.
        -- contradiction.
        -- intros [[H _] | [_ [value' [Hv [Hpos _]]]]]; [congruence |].
           inversion Hv; subst. apply Z.ltb_ge in Ev. lia.
      * simpl. split; [contradiction |].
        intros [[H _] | [_ [value' [Hv _]]]]; congruence.
    + rewrite inputmap_other_row by assumption. simpl.
      split; [contradiction |]. intros [[H _] | [H _]]; congruence.
Qed.

Lemma inputmap_raises (key : pyval) (line : string) (e : pyerr) :
  snd (inputmap key (PyStr line)) = Some e <->
  (field_count line = 8%nat \/ field_count line = 4%nat) /\
  int_of_str (field 2 line) = Raise e.
Proof.
  destruct (Nat.eq_dec (field_count line) 8) as [H8 | H8].
  - rewrite inputmap_rating_row by assumption.
    destruct (int_of_str (field 2 line)) as [rat |] eqn:E; simpl; split.
    + discriminate.
    + intros [_ H]. discriminate.
    + intros H. inversion H; subst. auto.
    + intros [_ H]. inversion H; subst. reflexivity.
  - destruct (Nat.eq_dec (field_count line) 4) as [H4 | H4].
    + rewrite inputmap_trust_row by assumption.
      destruct (int_of_str (field 2 line)) as [value |] eqn:E.
      * destruct (0 <? value); simpl; split; try discriminate;
          intros [_ H]; discriminate.
      * simpl. split.
        -- intros H. inversion H; subst. auto.
        -- intros [_ H]. inversion H; subst. reflexivity.
    + rewrite inputmap_other_row by assumption. simpl.
      split; [discriminate |]. intros [[H | H] _]; congruence.
Qed.

Lemma classify_raise (lines : list string) (e : pyerr) :
  map_phase (Some inputmap) (read_lines lines) = Raise e ->
  exists line, In line lines /\
               (field_count line = 8%nat \/ field_count line = 4%nat) /\
               int_of_str (field 2 line) = Raise e.
Proof.
  unfold map_phase, read_lines. intros H. apply collect_raise in H.
  destruct H as [g [Hg He]]. rewrite map_map in Hg. apply in_map_iff in Hg.
  destruct Hg as [line [<- Hline]]. cbn [mapper_of fst snd] in He.
  apply inputmap_raises in He. exists line. tauto.
Qed.

Lemma classify_ok (lines : list string) (kvs : list record) :
  map_phase (Some inputmap) (read_lines lines) = Ok kvs ->
  (forall line, In line lines ->
                snd (inputmap PyNone (PyStr line)) = None) /\
  (forall kv, In kv kvs <->
              exists line, In line lines /\
                           In kv (fst (inputmap PyNone (PyStr line)))).
Proof.
  unfold map_phase, read_lines. rewrite map_map. cbn [mapper_of fst snd].
  intros H. split.
  - intros line Hline.
    apply (collect_ok_no_raise _ _ _ H).
    apply in_map_iff. exists line. auto.
  - intros kv. split.
    + intros Hin. destruct (collect_in _ _ _ H Hin) as [g [Hg Hkv]].
      apply in_map_iff in Hg. destruct Hg as [line [<- Hline]]. eauto.
    + intros [line [Hline Hkv]]. eapply collect_in_conv; [exact H | | exact Hkv].
      apply in_map_iff. exists line. auto.
Qed.

(** The join stage fails only in the classifier, and only with the
    [ValueError] of an 8-field or 4-field line whose third field is not an
    integer; in particular the join reducer never raises on classified
    rows. *)
Theorem join_stage_failure (sh : shuffle) (lines : list string) :
  valid_shuffle sh ->
  ((exists e, join_stage sh lines = Raise e) <->
   exists line, In line lines /\
                (field_count line = 8%nat \/ field_count line = 4%nat) /\
                int_of_str (field 2 line) = Raise ValueError) /\
  (forall e, join_stage sh lines = Raise e -> e = ValueError).
Proof.
  intros Hsh. unfold join_stage, run_step. cbn [step_mapper step_reducer].
  destruct (map_phase (Some inputmap) (read_lines lines)) as [kvs | e0] eqn:Emap;
    cbn [bind].
  - pose proof (classified_encoded lines kvs Emap) as Henc.
    destruct (join_nothing_iff kvs (sh kvs) Henc (Hsh kvs)) as [c [-> _]].
    split; [| discriminate]. split.
    + intros [e He]. discriminate.
    + intros [line [Hline [Hcount Hbad]]].
      destruct (classify_ok lines kvs Emap) as [Hnone _].
      specialize (Hnone line Hline).
      assert (Hsome : snd (inputmap PyNone (PyStr line)) = Some ValueError)
        by (apply inputmap_raises; auto).
      congruence.
  - destruct (classify_raise lines e0 Emap) as [line [Hline [Hcount Hbad]]].
    pose proof (int_of_str_error _ _ Hbad) as ->.
    split.
    + split; eauto.
    + intros e He. now inversion He.
Qed.

Lemma join_stage_failure_witness :
  ((exists e, join_stage group_by_key
                [row ["a"; "u1"; "yes"; "c"]] = Raise e) <->
   exists line, In line [row ["a"; "u1"; "yes"; "c"]] /\
                (field_count line = 8%nat \/ field_count line = 4%nat) /\
                int_of_str (field 2 line) = Raise ValueError) /\
  (forall e, join_stage group_by_key [row ["a"; "u1"; "yes"; "c"]] = Raise e ->
             e = ValueError).
Proof.
  apply join_stage_failure. apply group_by_key_valid.
Defined.

(** *** What the join stage yields *)

Lemma join_records (kvs : list record) (gs : list group)
    (contribs : list record) :
  (forall k v, In (k, v) kvs -> exists j, v = encode j) ->
  is_grouping kvs gs ->
  reduce_phase joinred gs = Ok contribs ->
  forall k v,
    In (k, v) contribs <->
    exists key u o, In (key, encode (Truster u)) kvs /\
                    In (key, encode (Rating o v)) kvs /\
                    k = PyTuple [u; o].
Proof.
  intros Henc Hgrp Hred.
  assert (Hgs : forall k vs, In (k, vs) gs -> exists js, vs = map encode js).
  { intros k vs Hin. apply encoded_values. intros v Hv.
    apply (Henc k v). apply (grouping_in kvs gs k v Hgrp). eauto. }
  destruct (reduce_joinred gs Hgs) as [contribs' [Hred' Hin]].
  assert (contribs' = contribs) by congruence. subst contribs'.
  intros k v. rewrite Hin. split.
  - intros [key [js [Hg Hfan]]]. apply in_fan_out in Hfan.
    destruct Hfan as [u [o [Hu [Hr ->]]]].
    apply in_trusters_of in Hu. apply in_ratings_of in Hr.
    exists key, u, o. repeat split; try reflexivity;
      apply (grouping_in kvs gs key _ Hgrp); eauto.
  - intros [key [u [o [Hu [Hr ->]]]]].
    apply (grouping_in kvs gs key _ Hgrp) in Hu, Hr.
    destruct Hu as [vs [Hg Hu]], Hr as [vs' [Hg' Hr]].
    destruct Hgrp as [Hnd _].
    pose proof (grouping_key_unique gs key vs vs' Hnd Hg Hg') as <-.
    destruct (Hgs key vs Hg) as [js ->].
    apply in_trusters_of in Hu. apply in_ratings_of in Hr.
    exists key, js. split; [exact Hg |]. apply in_fan_out. exists u, o. auto.
Qed.

Lemma join_stage_inv (sh : shuffle) (lines : list string)
    (contribs : list record) :
  join_stage sh lines = Ok contribs ->
  exists kvs, map_phase (Some inputmap) (read_lines lines) = Ok kvs /\
              reduce_phase joinred (sh kvs) = Ok contribs.
Proof.
  unfold join_stage, run_step. cbn [step_mapper step_reducer].
  destruct (map_phase (Some inputmap) (read_lines lines)) as [kvs |];
    cbn [bind]; [| discriminate].
  intros H. exists kvs. auto.
Qed.

(** The join stage computes the join of the trust edges with the ratings: it
    yields [((truster, item), rating)] exactly when some line is a rating of
    the item by a user and some line is a positive trust edge from the
    truster to that user, the user ids being compared after stripping. *)
Theorem join_stage_contributions (sh : shuffle) (lines : list string)
    (contribs : list record) :
  valid_shuffle sh ->
  join_stage sh lines = Ok contribs ->
  forall k v,
    In (k, v) contribs <->
    exists rline tline rat value,
      In rline lines /\ field_count rline = 8%nat /\
      int_of_str (field 2 rline) = Ok rat /\
      In tline lines /\ field_count tline = 4%nat /\
      int_of_str (field 2 tline) = Ok value /\ 0 < value /\
      strip (field 1 tline) = strip (field 1 rline) /\
      k = PyTuple [PyStr (strip (field 0 tline));
                   PyStr (strip (field 0 rline))] /\
      v = PyInt rat.
Proof.
  intros Hsh Hjoin k v.
  destruct (join_stage_inv sh lines contribs Hjoin) as [kvs [Emap Hred]].
  pose proof (classified_encoded lines kvs Emap) as Henc.
  destruct (classify_ok lines kvs Emap) as [_ Hkvs].
  rewrite (join_records kvs (sh kvs) contribs Henc (Hsh kvs) Hred). split.
  - intros [key [u [o [Hu [Hr ->]]]]].
    apply Hkvs in Hu, Hr.
    destruct Hu as [tline [Htl Hu]], Hr as [rline [Hrl Hr]].
    apply inputmap_yields in Hu, Hr. cbn [encode] in Hu, Hr.
    destruct Hu as [[_ [? [_ [_ Hbad]]]] | [Ht4 [value [Hv [Hpos [Hk Hm]]]]]];
      [discriminate |].
    destruct Hr as [[Hr8 [rat [Hrat [Hk' Hp]]]] | [_ [? [_ [_ [_ Hbad]]]]]];
      [| discriminate].
    inversion Hm; subst. inversion Hp; subst. inversion Hk'.
    exists rline, tline, rat, value. repeat split; auto.
  - intros [rline [tline [rat [value
             [Hrl [Hr8 [Hrat [Htl [Ht4 [Hv [Hpos [Hsame [-> ->]]]]]]]]]]]]].
    exists (PyStr (strip (field 1 rline))), (PyStr (strip (field 0 tline))),
           (PyStr (strip (field 0 rline))).
    repeat split; apply Hkvs.
    + exists tline. split; [assumption |]. apply inputmap_yields. right.
      split; [assumption |]. exists value. cbn [encode]. rewrite Hsame. auto.
    + exists rline. split; [assumption |]. apply inputmap_yields. left.
      split; [assumption |]. exists rat. cbn [encode]. auto.
Qed.

Lemma join_stage_contributions_witness :
    In (PyTuple [PyStr "a"; PyStr "o1"], PyInt 4)
       [(PyTuple [PyStr "a"; PyStr "o1"], PyInt 4)] <->
    exists rline tline rat value,
      In rline [row ["o1"; "u1"; "4"; "1"; "c"; "m"; "t"; "1"];
                row ["a"; "u1"; "1"; "c"]] /\
      field_count rline = 8%nat /\
      int_of_str (field 2 rline) = Ok rat /\
      In tline [row ["o1"; "u1"; "4"; "1"; "c"; "m"; "t"; "1"];
                row ["a"; "u1"; "1"; "c"]] /\
      field_count tline = 4%nat /\
      int_of_str (field 2 tline) = Ok value /\ 0 < value /\
      strip (field 1 tline) = strip (field 1 rline) /\
      PyTuple [PyStr "a"; PyStr "o1"] =
        PyTuple [PyStr (strip (field 0 tline));
                 PyStr (strip (field 0 rline))] /\
      PyInt 4 = PyInt rat.
Proof.
  apply (join_stage_contributions group_by_key
           [row ["o1"; "u1"; "4"; "1"; "c"; "m"; "t"; "1"];
            row ["a"; "u1"; "1"; "c"]]
           [(PyTuple [PyStr "a"; PyStr "o1"], PyInt 4)]).
  - apply group_by_key_valid.
  - reflexivity.
Defined.

(** Every contribution of the join stage is keyed by a pair of strings and
    carries an integer, so [rowgroupmap] never raises on a record keyed by
    such a contribution's key: it moves the item from the key to the value
    and leaves the truster as the key. *)
Theorem rowgroupmap_after_join (sh : shuffle) (lines : list string)
    (contribs : list record) (k v : pyval) :
  valid_shuffle sh ->
  join_stage sh lines = Ok contribs ->
  In (k, v) contribs ->
  exists truster item rat,
    k = PyTuple [PyStr truster; PyStr item] /\ v = PyInt rat /\
    forall score,
      rowgroupmap k score = yield (PyStr truster) (PyTuple [PyStr item; score]).
Proof.
  intros Hsh Hjoin Hin.
  destruct (join_stage_inv sh lines contribs Hjoin) as [kvs [Emap Hred]].
  pose proof (classified_encoded lines kvs Emap) as Henc.
  destruct (classify_ok lines kvs Emap) as [_ Hkvs].
  apply (join_records kvs (sh kvs) contribs Henc (Hsh kvs) Hred) in Hin.
  destruct Hin as [key [u [o [Hu [Hr ->]]]]].
  apply Hkvs in Hu, Hr.
  destruct Hu as [tline [_ Hu]], Hr as [rline [_ Hr]].
  apply inputmap_yields in Hu, Hr. cbn [encode] in Hu, Hr.
  destruct Hu as [[_ [? [_ [_ Hbad]]]] | [_ [value [_ [_ [_ Hm]]]]]];
    [discriminate |].
  destruct Hr as [[_ [rat [_ [_ Hp]]]] | [_ [? [_ [_ [_ Hbad]]]]]];
    [| discriminate].
  inversion Hm; subst. inversion Hp; subst.
  exists (strip (field 0 tline)), (strip (field 0 rline)), rat.
  repeat split.
Qed.

Lemma rowgroupmap_after_join_witness :
  exists truster item rat,
    PyTuple [PyStr "a"; PyStr "o1"] = PyTuple [PyStr truster; PyStr item] /\
    PyInt 4 = PyInt rat /\
    forall score,
      rowgroupmap (PyTuple [PyStr "a"; PyStr "o1"]) score =
      yield (PyStr truster) (PyTuple [PyStr item; score]).
Proof.
  apply (rowgroupmap_after_join group_by_key
           [row ["o1"; "u1"; "4"; "1"; "c"; "m"; "t"; "1"];
            row ["a"; "u1"; "1"; "c"]]
           [(PyTuple [PyStr "a"; PyStr "o1"], PyInt 4)]).
  - apply group_by_key_valid.
  - reflexivity.
  - now left.
Defined.

(** [rowgroupmap] reads the first two items of the key and ignores any other:
    a key with fewer than two items raises [IndexError] and a key that
    cannot be indexed raises [TypeError]. *)
Theorem rowgroupmap_outcomes (key val : pyval) :
  rowgroupmap key val =
  match items_of key with
  | Ok (k0 :: k1 :: _) => yield k0 (PyTuple [k1; val])
  | Ok _ => raise IndexError
  | Raise _ => raise TypeError
  end.
Proof.
  unfold rowgroupmap, py_getitem.
  destruct (items_of key) as [[| k0 [| k1 l]] | e] eqn:E; try reflexivity.
  now rewrite (items_of_error _ _ E).
Qed.

(** *** The join stage under two shuffles *)

Lemma values_at_app (k : pyval) (a b : list record) :
  values_at k (a ++ b) = values_at k a ++ values_at k b.
Proof. unfold values_at. now rewrite filter_app, map_app. Qed.

Lemma values_at_perm (k : pyval) (kvs kvs' : list record) :
  Permutation kvs kvs' -> Permutation (values_at k kvs) (values_at k kvs').
Proof.
  unfold values_at. intros Hp. apply Permutation_map.
  induction Hp as [| x l l' Hp IH | x y l | l l' l'' Hp1 IH1 Hp2 IH2].
  - reflexivity.
  - cbn [filter]. destruct (pyval_eq_dec (fst x) k); [now constructor | exact IH].
  - cbn [filter].
    destruct (pyval_eq_dec (fst x) k), (pyval_eq_dec (fst y) k);
      try reflexivity. apply perm_swap.
  - etransitivity; eauto.
Qed.

Lemma values_at_same (k : pyval) (vs : list pyval) :
  values_at k (map (pair k) vs) = vs.
Proof.
  unfold values_at. induction vs as [| v vs IH]; [reflexivity |].
  cbn [map filter fst]. destruct (pyval_eq_dec k k); [| congruence].
  cbn [map snd]. now rewrite IH.
Qed.

Lemma values_at_other (k k0 : pyval) (vs : list pyval) :
  k0 <> k -> values_at k (map (pair k0) vs) = [].
Proof.
  intros Hneq. unfold values_at. induction vs as [| v vs IH]; [reflexivity |].
  cbn [map filter fst]. destruct (pyval_eq_dec k0 k); [congruence | exact IH].
Qed.

Lemma values_at_absent (k : pyval) (gs : list group) :
  ~ In k (map fst gs) -> values_at k (ungroup gs) = [].
Proof.
  induction gs as [| [k0 vs0] gs IH]; intros Hnotin; [reflexivity |].
  rewrite ungroup_cons, values_at_app. cbn [fst snd].
  rewrite values_at_other, IH; [reflexivity | |].
  - intros Hin. apply Hnotin. now right.
  - intros ->. apply Hnotin. now left.
Qed.

Lemma values_at_group (k : pyval) (vs : list pyval) (gs : list group) :
  NoDup (map fst gs) -> In (k, vs) gs -> values_at k (ungroup gs) = vs.
Proof.
  induction gs as [| [k0 vs0] gs IH]; intros Hnd Hin; [contradiction |].
  inversion Hnd as [| ? ? Hnotin Hnd']; subst.
  rewrite ungroup_cons, values_at_app. cbn [fst snd].
  destruct Hin as [Heq | Hin].
  - inversion Heq; subst. rewrite values_at_same, values_at_absent by assumption.
    apply app_nil_r.
  - rewrite values_at_other, (IH Hnd' Hin); [reflexivity |].
    intros ->. apply Hnotin. apply (in_map fst) in Hin. exact Hin.
Qed.

(** A group of a grouping holds the values of its key, in some order. *)
Lemma grouping_values (kvs : list record) (gs : list group) (k : pyval)
    (vs : list pyval) :
  is_grouping kvs gs -> In (k, vs) gs -> Permutation vs (values_at k kvs).
Proof.
  intros [Hnd [_ Hperm]] Hin.
  rewrite <- (values_at_group k vs gs Hnd Hin).
  apply Permutation_sym, values_at_perm. exact Hperm.
Qed.

Lemma grouping_has_key (kvs : list record) (gs gs' : list group) (k : pyval)
    (vs : list pyval) :
  is_grouping kvs gs -> is_grouping kvs gs' -> In (k, vs) gs ->
  exists vs', In (k, vs') gs' /\ Permutation vs vs'.
Proof.
  intros Hg Hg' Hin.
  assert (Hne : vs <> []).
  { destruct Hg as [_ [Hne _]]. rewrite Forall_forall in Hne.
    apply (Hne (k, vs) Hin). }
  destruct vs as [| v vs]; [congruence |].
  assert (Hkv : In (k, v) kvs)
    by (apply (grouping_in kvs gs k v Hg); exists (v :: vs); simpl; auto).
  apply (grouping_in kvs gs' k v Hg') in Hkv. destruct Hkv as [vs' [Hin' _]].
  exists vs'. split; [assumption |].
  etransitivity; [apply (grouping_values kvs gs k _ Hg Hin) |].
  apply Permutation_sym. now apply (grouping_values kvs gs' k).
Qed.

Lemma flat_map_groups (F : group -> list record) (gs : list group) :
  forall gs',
    NoDup (map fst gs) -> NoDup (map fst gs') ->
    (forall k vs, In (k, vs) gs ->
                  exists vs', In (k, vs') gs' /\
                              Permutation (F (k, vs)) (F (k, vs'))) ->
    (forall k vs', In (k, vs') gs' -> In k (map fst gs)) ->
    Permutation (flat_map F gs) (flat_map F gs').
Proof.
  induction gs as [| [k vs] gs IH]; intros gs' Hnd Hnd' Hto Hfrom.
  - destruct gs' as [| [k' vs'] gs']; [reflexivity |].
    exfalso. apply (Hfrom k' vs'). now left.
  - destruct (Hto k vs (or_introl eq_refl)) as [vs' [Hin' HF]].
    apply in_split in Hin'. destruct Hin' as [l1 [l2 ->]].
    inversion Hnd as [| ? ? Hnotin Hnd1]; subst.
    rewrite map_app in Hnd'. cbn [map fst] in Hnd'.
    pose proof (NoDup_remove_1 _ _ _ Hnd') as Hnd2.
    pose proof (NoDup_remove_2 _ _ _ Hnd') as Hnotin2.
    rewrite <- map_app in Hnd2, Hnotin2.
    rewrite flat_map_app. cbn [flat_map].
    etransitivity; [| apply Permutation_app_swap_app].
    apply Permutation_app; [exact HF |].
    rewrite <- flat_map_app. apply IH; try assumption.
    + intros k1 vs1 Hin1.
      destruct (Hto k1 vs1 (or_intror Hin1)) as [vs1' [Hin1' HF1]].
      exists vs1'. split; [| exact HF1].
      apply in_app_or in Hin1'. apply in_or_app.
      destruct Hin1' as [H | [H | H]]; auto.
      inversion H; subst. exfalso. apply Hnotin.
      apply (in_map fst) in Hin1. exact Hin1.
    + intros k1 vs1' Hin1'.
      assert (Hin : In (k1, vs1') (l1 ++ (k, vs') :: l2)).
      { apply in_app_or in Hin1'. apply in_or_app. simpl. tauto. }
      destruct (Hfrom k1 vs1' Hin) as [Heq | H]; [| exact H].
      cbn [fst] in Heq. subst k1. exfalso. apply Hnotin2.
      apply (in_map fst) in Hin1'. exact Hin1'.
Qed.

Lemma reduce_joinred_flat (gs : list group) :
  (forall k vs, In (k, vs) gs -> exists js, vs = map encode js) ->
  reduce_phase joinred gs =
  Ok (flat_map (fun g : group => fst (joinred (fst g) (snd g))) gs).
Proof.
  unfold reduce_phase. induction gs as [| [k vs] gs IH]; intros Henc;
    [reflexivity |].
  destruct (Henc k vs (or_introl eq_refl)) as [js ->].
  cbn [map flat_map fst snd]. rewrite joinred_encoded. cbn [collect fst].
  rewrite IH; [reflexivity |].
  intros k' vs' H'. apply (Henc k' vs'). now right.
Qed.

(** The contributions of the join stage do not depend on the shuffle, up to
    their order: under any two shuffles the stage yields the same records,
    each as many times. *)
Theorem join_stage_any_shuffle (sh sh' : shuffle) (lines : list string)
    (contribs : list record) :
  valid_shuffle sh -> valid_shuffle sh' ->
  join_stage sh lines = Ok contribs ->
  exists contribs',
    join_stage sh' lines = Ok contribs' /\ Permutation contribs contribs'.
Proof.
  intros Hsh Hsh' Hjoin.
  destruct (join_stage_inv sh lines contribs Hjoin) as [kvs [Emap Hred]].
  pose proof (classified_encoded lines kvs Emap) as Henc.
  assert (Hgs : forall sh0, valid_shuffle sh0 ->
                forall k vs, In (k, vs) (sh0 kvs) ->
                             exists js, vs = map encode js).
  { intros sh0 Hsh0 k vs Hin. apply encoded_values. intros v Hv.
    apply (Henc k v). apply (grouping_in kvs (sh0 kvs) k v (Hsh0 kvs)). eauto. }
  rewrite (reduce_joinred_flat (sh kvs) (Hgs sh Hsh)) in Hred.
  inversion Hred; subst contribs.
  eexists. split.
  - unfold join_stage, run_step. cbn [step_mapper step_reducer].
    rewrite Emap. cbn [bind]. apply (reduce_joinred_flat (sh' kvs) (Hgs sh' Hsh')).
  - apply flat_map_groups.
    + apply (Hsh kvs).
    + apply (Hsh' kvs).
    + intros k vs Hin.
      destruct (grouping_has_key kvs (sh kvs) (sh' kvs) k vs
                  (Hsh kvs) (Hsh' kvs) Hin) as [vs' [Hin' Hperm]].
      exists vs'. split; [assumption |]. cbn [fst snd].
      destruct (Hgs sh Hsh k vs Hin) as [js ->].
      apply Permutation_sym, Permutation_map_inv in Hperm.
      destruct Hperm as [js' [-> Hjs]].
      rewrite !joinred_encoded. cbn [fst].
      apply fan_out_perm; [now apply trusters_of_perm | now apply ratings_of_perm].
    + intros k vs' Hin'.
      destruct (grouping_has_key kvs (sh' kvs) (sh kvs) k vs'
                  (Hsh' kvs) (Hsh kvs) Hin') as [vs [Hin _]].
      apply (in_map fst) in Hin. exact Hin.
Qed.

Lemma join_stage_any_shuffle_witness :
  exists contribs',
    join_stage group_by_key_rev
      [row ["o1"; "u1"; "4"; "1"; "c"; "m"; "t"; "1"];
       row ["a"; "u1"; "1"; "c"]; row ["b"; "u1"; "1"; "c"]] = Ok contribs' /\
    Permutation [(PyTuple [PyStr "a"; PyStr "o1"], PyInt 4);
                 (PyTuple [PyStr "b"; PyStr "o1"], PyInt 4)] contribs'.
Proof.
  apply (join_stage_any_shuffle group_by_key).
  - apply group_by_key_valid.
  - apply group_by_key_rev_valid.
  - reflexivity.
Defined.

End Stages.

(** ** The ranked output *)

Section Ranking.

(** The sort key of [topkoutput] is the score alone.  With the keyword
    spelt [reverse], two items of equal score would come out in the order in
    which they arrived, whatever their ids: the ranking of ties would follow
    the shuffle. *)
Lemma score_sort_ties_follow_arrival (item item' score : pyval) :
  py_lt score score = false ->
  py_sorted [PyTuple [item; score]; PyTuple [item'; score]]
            [("key", itemgetter 1); ("reverse", ArgVal (PyBool true))] =
  Ok [PyTuple [item; score]; PyTuple [item'; score]].
Proof.
  intros Htie. unfold py_sorted.
  cbn -[py_lt]. rewrite Htie. reflexivity.
Qed.

(** The score of [sumred] depends on the order in which the values arrive:
    float addition is not associative, and ratings are not bounded. *)
Lemma sumred_depends_on_arrival_order :
  sumred {| avg := PyInt 3; topk := PyInt 25 |} PyNone
         [PyInt 9007199254740992; PyInt 1; PyInt 1; PyInt 1; PyInt 1] =
    yield PyNone (PyFloat (S754_finite false 6004799503160664 (-2))) /\
  sumred {| avg := PyInt 3; topk := PyInt 25 |} PyNone
         [PyInt 1; PyInt 1; PyInt 1; PyInt 1; PyInt 9007199254740992] =
    yield PyNone (PyFloat (S754_finite false 6004799503160667 (-2))).
Proof. split; vm_compute; reflexivity. Qed.



End Ranking.
